(** * cumc.h: data-structure and interface layer of the CUDA marching-cubes
    context (namespace [cumc]).

    The header declares three templated value types ([Vertex<T>],
    [Feature<T>], [Triangle<T>]) and the context [CuMC<Scalar, IndexType>]
    with its grid addressing ([gA], [gX], [gY], [gZ]) and [resize].  This
    development embeds them shallowly:

    - [IndexType] is a template parameter.  It is taken as one of the four
      built-in integer types of rank at least [int]; a value is a [Z] in the
      range of its type, [+] and [*] reduce modulo [2^bits] (two's complement
      wrap-around, the convention of CompCert C for signed overflow), and
      [/] and [%] truncate towards zero and are undefined on a zero divisor
      and on [min / -1].
    - [T] / [Scalar] is a template parameter as well (a floating type in
      practice).  It is kept abstract behind the class [ScalarOps], so that
      nothing below relies on algebraic laws that floating point lacks.
    - mutating member functions run in a small state monad over an object
      memory, so that [a += a] (argument aliasing the receiver) is covered. *)

From Stdlib Require Import ZArith Lia.
From stdpp Require Import base tactics option list functions vector.

(** ** Outcomes of a computation *)

Inductive Fault : Type :=
  | UndefinedBehaviour     (* C++ undefined behaviour: division by zero, min / -1 *)
  | AllocationFailure
  | DeviceExecutionError.

Inductive result (A : Type) : Type :=
  | Ok (a : A)
  | Err (e : Fault).
Arguments Ok {A} a.
Arguments Err {A} e.

Definition rbind {A B : Type} (r : result A) (f : A → result B) : result B :=
  match r with
  | Ok a => f a
  | Err e => Err e
  end.

Definition succeeds {A : Type} (r : result A) : Prop := ∃ a, r = Ok a.

#[global] Instance result_ret : MRet result := λ A a, Ok a.
#[global] Instance result_bind : MBind result := λ A B f r, rbind r f.

(** ** IndexType arithmetic *)

Module Index.
Local Open Scope Z_scope.

Inductive Kind : Type := Int32 | UInt32 | Int64 | UInt64.

Definition bits (k : Kind) : Z :=
  match k with
  | Int32 | UInt32 => 32
  | Int64 | UInt64 => 64
  end.

Definition signed (k : Kind) : bool :=
  match k with
  | Int32 | Int64 => true
  | UInt32 | UInt64 => false
  end.

Definition modulus (k : Kind) : Z := 2 ^ bits k.

Definition min (k : Kind) : Z :=
  if signed k then - 2 ^ (bits k - 1) else 0.

Definition max (k : Kind) : Z :=
  if signed k then 2 ^ (bits k - 1) - 1 else 2 ^ bits k - 1.

(** The values an object of the type can hold. *)
Definition range (k : Kind) (v : Z) : Prop := min k <= v <= max k.

(** Reduction of a mathematical integer to the representable one that is
    congruent to it modulo [2^bits]. *)
Definition wrap (k : Kind) (v : Z) : Z :=
  let u := v mod modulus k in
  if signed k && (max k <? u) then u - modulus k else u.

Definition add (k : Kind) (a b : Z) : Z := wrap k (a + b).
Definition mul (k : Kind) (a b : Z) : Z := wrap k (a * b).

(** The one quotient that does not fit: [min / -1] of a signed type. *)
Definition quot_overflows (k : Kind) (a b : Z) : bool :=
  signed k && (a =? min k) && (b =? -1).

Definition div (k : Kind) (a b : Z) : result Z :=
  if b =? 0 then Err UndefinedBehaviour
  else if quot_overflows k a b then Err UndefinedBehaviour
  else Ok (Z.quot a b).

Definition rem (k : Kind) (a b : Z) : result Z :=
  if b =? 0 then Err UndefinedBehaviour
  else if quot_overflows k a b then Err UndefinedBehaviour
  else Ok (Z.rem a b).

End Index.

(** ** The scalar template parameter *)

(** What the header asks of [T]: the binary operators [+], [-], [*] and the
    conversion of the literal [0].  For a built-in arithmetic type the
    compound forms [a += b], [a -= b], [a *= b] are [a = a + b] and so on. *)
Class ScalarOps (T : Type) : Type := {
  sadd : T → T → T;
  ssub : T → T → T;
  smul : T → T → T;
  szero : T
}.

#[global] Instance Z_scalar : ScalarOps Z :=
  {| sadd := Z.add; ssub := Z.sub; smul := Z.mul; szero := 0%Z |}.

Declare Scope scalar_scope.
Delimit Scope scalar_scope with sc.
Infix "⊕" := sadd (at level 50, left associativity) : scalar_scope.
Infix "⊖" := ssub (at level 50, left associativity) : scalar_scope.
Infix "⊗" := smul (at level 40, left associativity) : scalar_scope.
Local Open Scope scalar_scope.

(** ** Control flow and object memory *)

(** [for (int i = start; i < start + count; ++i) s = body i s]. *)
Fixpoint for_range {X : Type} (start count : nat) (body : nat → X → X) (s : X) : X :=
  match count with
  | O => s
  | S count' => for_range (S start) count' body (body start s)
  end.

(** Objects of one class live at locations; a reference is a location. *)
Definition loc : Type := nat.
Abbreviation Mem O := (loc → O) (only parsing).

(** Member functions that write through [this] are state transformers. *)
Definition St (O A : Type) : Type := Mem O → A * Mem O.

#[global] Instance St_ret {O} : MRet (St O) := λ A a m, (a, m).
#[global] Instance St_bind {O} : MBind (St O) :=
  λ A B f c m, let '(a, m') := c m in f a m'.

Definition load {O} (l : loc) : St O O := λ m, (m l, m).
Definition store {O} (l : loc) (v : O) : St O unit := λ m, (tt, <[l := v]> m).

(** The memory a computation leaves, and the value it returns. *)
Definition exec {O A} (c : St O A) (m : Mem O) : Mem O := snd (c m).
Definition eval {O A} (c : St O A) (m : Mem O) : A := fst (c m).

(** The loop of a member function, its body a statement on the memory. *)
Definition for_stmt {O} (start count : nat) (body : nat → St O unit) : St O unit :=
  λ m, (tt, for_range start count (λ i m, exec (body i) m) m).

(** ** [struct Vertex] *)

Module Vertex.
Section Vertex.
Context {T : Type} `{ScalarOps T}.

Record t : Type := mk { x : T; y : T; z : T }.

Definition set_x (v : t) (a : T) : t := {| x := a; y := y v; z := z v |}.
Definition set_y (v : t) (a : T) : t := {| x := x v; y := a; z := z v |}.
Definition set_z (v : t) (a : T) : t := {| x := x v; y := y v; z := a |}.

(** The [const] members, on the values of the receiver and of [other]. *)
Definition add (this other : t) : t :=
  {| x := x this ⊕ x other; y := y this ⊕ y other; z := z this ⊕ z other |}.

Definition dot (this other : t) : T :=
  x this ⊗ x other ⊕ y this ⊗ y other ⊕ z this ⊗ z other.

Definition sub (this other : t) : t :=
  {| x := x this ⊖ x other; y := y this ⊖ y other; z := z this ⊖ z other |}.

Definition mul (this other : t) : t :=
  {| x := x this ⊗ x other; y := y this ⊗ y other; z := z this ⊗ z other |}.

Definition scale (this : t) (scalar : T) : t :=
  {| x := x this ⊗ scalar; y := y this ⊗ scalar; z := z this ⊗ scalar |}.

(** A parameter [T const &scalar] is a reference: to a scalar held outside
    the vertex memory (a temporary, a local), or to a member of a vertex. *)
Inductive field : Type := fx | fy | fz.

Definition get (v : t) (f : field) : T :=
  match f with fx => x v | fy => y v | fz => z v end.

Inductive sref : Type :=
  | Outside (s : T)
  | Member (l : loc) (f : field).

Definition deref (scalar : sref) : St t T :=
  match scalar with
  | Outside s => mret s
  | Member l f => a ← load l; mret (get a f)
  end.

(** The reference does not point into the object at [this]. *)
Definition apart (this : loc) (scalar : sref) : Prop :=
  match scalar with
  | Outside _ => True
  | Member l _ => l ≠ this
  end.

(** A call [a.op(b)] of a [const] member through references: both operands
    are read, no [store] is issued, the result is returned by value. *)
Definition call {A} (op : t → t → A) (this other : loc) : St t A :=
  a ← load this; b ← load other; mret (op a b).

Definition call_scale (this : loc) (scalar : sref) : St t t :=
  a ← load this; s ← deref scalar; mret (scale a s).

(** The compound assignments: one statement per member, each reading its
    operands after the stores that precede it; they return [*this]. *)
Definition add_assign (this other : loc) : St t loc :=
  a ← load this; b ← load other; store this (set_x a (x a ⊕ x b));;
  a ← load this; b ← load other; store this (set_y a (y a ⊕ y b));;
  a ← load this; b ← load other; store this (set_z a (z a ⊕ z b));;
  mret this.

Definition sub_assign (this other : loc) : St t loc :=
  a ← load this; b ← load other; store this (set_x a (x a ⊖ x b));;
  a ← load this; b ← load other; store this (set_y a (y a ⊖ y b));;
  a ← load this; b ← load other; store this (set_z a (z a ⊖ z b));;
  mret this.

Definition scale_assign (this : loc) (scalar : sref) : St t loc :=
  a ← load this; s ← deref scalar; store this (set_x a (x a ⊗ s));;
  a ← load this; s ← deref scalar; store this (set_y a (y a ⊗ s));;
  a ← load this; s ← deref scalar; store this (set_z a (z a ⊗ s));;
  mret this.

End Vertex.
Arguments t : clear implicits.
Arguments sref : clear implicits.
End Vertex.

(** ** [struct Feature] *)

Module Feature.

(** [static const int SIZE = 8]. *)
Definition SIZE : nat := 8.

Section Feature.
Context {T : Type} `{ScalarOps T}.

(** [T data[SIZE]]: an array, by index.  An object of the class has exactly
    [SIZE] slots ([wf]); every index the members use is below [SIZE], so the
    value chosen for a read past the end is never observed on such objects. *)
Record t : Type := mk { data : list T }.

Definition wf (f : t) : Prop := length (data f) = SIZE.

Definition get (f : t) (i : nat) : T := default szero (data f !! i).
Definition set (f : t) (i : nat) (v : T) : t := {| data := <[i := v]> (data f) |}.

(** The eight-component array that combines [a] and [b] slot by slot. *)
Definition zipped (op : T → T → T) (a b : t) : t :=
  {| data := [op (get a 0) (get b 0); op (get a 1) (get b 1);
              op (get a 2) (get b 2); op (get a 3) (get b 3);
              op (get a 4) (get b 4); op (get a 5) (get b 5);
              op (get a 6) (get b 6); op (get a 7) (get b 7)] |}.

(** The [const] members.  [Feature<T> result;] is a local whose slots are
    not initialised: its contents on entry are the argument [result]. *)
Definition add (this other : t) (result : t) : t :=
  for_range 0 SIZE (λ i result, set result i (get this i ⊕ get other i)) result.

Definition dot (this other : t) : T :=
  for_range 0 SIZE (λ i result, result ⊕ get this i ⊗ get other i) szero.

Definition sub (this other : t) (result : t) : t :=
  for_range 0 SIZE (λ i result, set result i (get this i ⊖ get other i)) result.

Definition mul (this other : t) (result : t) : t :=
  for_range 0 SIZE (λ i result, set result i (get this i ⊗ get other i)) result.

Definition scale (this : t) (scalar : T) (result : t) : t :=
  for_range 0 SIZE (λ i result, set result i (get this i ⊗ scalar)) result.

(** A parameter [T const &scalar]: a scalar outside the feature memory, or
    a slot of a feature. *)
Inductive sref : Type :=
  | Outside (s : T)
  | Slot (l : loc) (i : nat).

Definition deref (scalar : sref) : St t T :=
  match scalar with
  | Outside s => mret s
  | Slot l i => a ← load l; mret (get a i)
  end.

Definition apart (this : loc) (scalar : sref) : Prop :=
  match scalar with
  | Outside _ => True
  | Slot l _ => l ≠ this
  end.

Definition call {A} (op : t → t → A) (this other : loc) : St t A :=
  a ← load this; b ← load other; mret (op a b).

Definition call_scale (this : loc) (scalar : sref) (result : t) : St t t :=
  a ← load this; s ← deref scalar; mret (scale a s result).

(** The compound assignments, slot by slot through [this]. *)
Definition add_assign (this other : loc) : St t loc :=
  for_stmt 0 SIZE (λ i,
    a ← load this; b ← load other; store this (set a i (get a i ⊕ get b i)));;
  mret this.

Definition sub_assign (this other : loc) : St t loc :=
  for_stmt 0 SIZE (λ i,
    a ← load this; b ← load other; store this (set a i (get a i ⊖ get b i)));;
  mret this.

Definition scale_assign (this : loc) (scalar : sref) : St t loc :=
  for_stmt 0 SIZE (λ i,
    a ← load this; s ← deref scalar; store this (set a i (get a i ⊗ s)));;
  mret this.

(** CUDA's [atomicAdd(address, val)] on the slot [&data[i]] of the object at
    [l]: it reads the slot, stores [old + val] and returns [old], as one
    indivisible step of the memory. *)
Definition atomicAdd (l : loc) (i : nat) (val : T) : St t T :=
  a ← load l; store l (set a i (get a i ⊕ val));; mret (get a i).

Definition atomicAddWapper (this other : loc) : St t unit :=
  for_stmt 0 SIZE (λ i, b ← load other; atomicAdd this i (get b i);; mret tt).

End Feature.
Arguments t : clear implicits.
Arguments sref : clear implicits.
End Feature.

(** ** [struct Triangle] *)

Module Triangle.
Record t (T : Type) : Type := mk { i : T; j : T; k : T }.
End Triangle.

(** ** [struct CuMC] *)

Module CuMC.
Import Index.
Local Open Scope Z_scope.

Section CuMC.
Context {Scalar : Type}.

(** The members, in declaration order.  [size_t] counts are [Z]; a device
    pointer is modelled by the array it owns (the context is the only owner
    of its buffers), the null pointer by the empty array. *)
Record t : Type := mk {
  dims : vec Z 3;
  n_cells : Z;

  n_used_cells : Z;
  n_verts : Z;
  n_tris : Z;

  allocated_temp_storage_size : Z;
  temp_storage : list Z;

  allocated_cell_count : Z;
  first_cell_used : list Z;

  allocated_used_cell_count : Z;
  used_cell_index : list Z;
  used_to_first_mc_vert : list Z;
  used_cell_code : list Z;
  used_to_first_mc_tri : list Z;

  allocated_vert_count : Z;
  verts_type : list Z;
  verts : list (Vertex.t Scalar);
  feats : list (Feature.t Scalar);
  allocated_tri_count : Z;
  tris : list Z
}.

(** The default member initialisers: [dims[3]{}], [n_cells{}],
    [n_used_cells{0}], ..., every count zero and every pointer null. *)
Definition init : t :=
  {| dims := [# 0; 0; 0]; n_cells := 0;
     n_used_cells := 0; n_verts := 0; n_tris := 0;
     allocated_temp_storage_size := 0; temp_storage := [];
     allocated_cell_count := 0; first_cell_used := [];
     allocated_used_cell_count := 0; used_cell_index := [];
     used_to_first_mc_vert := []; used_cell_code := [];
     used_to_first_mc_tri := [];
     allocated_vert_count := 0; verts_type := []; verts := []; feats := [];
     allocated_tri_count := 0; tris := [] |}.

(** Assignment to one member. *)
Definition set_dims (c : t) (i : fin 3) (v : Z) : t :=
  {| dims := vinsert i v (dims c); n_cells := n_cells c;
     n_used_cells := n_used_cells c; n_verts := n_verts c; n_tris := n_tris c;
     allocated_temp_storage_size := allocated_temp_storage_size c;
     temp_storage := temp_storage c;
     allocated_cell_count := allocated_cell_count c;
     first_cell_used := first_cell_used c;
     allocated_used_cell_count := allocated_used_cell_count c;
     used_cell_index := used_cell_index c;
     used_to_first_mc_vert := used_to_first_mc_vert c;
     used_cell_code := used_cell_code c;
     used_to_first_mc_tri := used_to_first_mc_tri c;
     allocated_vert_count := allocated_vert_count c;
     verts_type := verts_type c; verts := verts c; feats := feats c;
     allocated_tri_count := allocated_tri_count c; tris := tris c |}.

Definition set_n_cells (c : t) (v : Z) : t :=
  {| dims := dims c; n_cells := v;
     n_used_cells := n_used_cells c; n_verts := n_verts c; n_tris := n_tris c;
     allocated_temp_storage_size := allocated_temp_storage_size c;
     temp_storage := temp_storage c;
     allocated_cell_count := allocated_cell_count c;
     first_cell_used := first_cell_used c;
     allocated_used_cell_count := allocated_used_cell_count c;
     used_cell_index := used_cell_index c;
     used_to_first_mc_vert := used_to_first_mc_vert c;
     used_cell_code := used_cell_code c;
     used_to_first_mc_tri := used_to_first_mc_tri c;
     allocated_vert_count := allocated_vert_count c;
     verts_type := verts_type c; verts := verts c; feats := feats c;
     allocated_tri_count := allocated_tri_count c; tris := tris c |}.

Variable k : Kind.

(** [return z + dims[2] * (y + dims[1] * x);] *)
Definition gA (c : t) (x y z : Z) : Z :=
  add k z (mul k (dims c !!! 2%fin) (add k y (mul k (dims c !!! 1%fin) x))).

(** [return linearizedCellID / (dims[2] * dims[1]);] *)
Definition gX (c : t) (linearizedCellID : Z) : result Z :=
  div k linearizedCellID (mul k (dims c !!! 2%fin) (dims c !!! 1%fin)).

(** [return (linearizedCellID / dims[2]) % dims[1];] *)
Definition gY (c : t) (linearizedCellID : Z) : result Z :=
  q ← div k linearizedCellID (dims c !!! 2%fin); rem k q (dims c !!! 1%fin).

(** [return linearizedCellID % dims[2];] *)
Definition gZ (c : t) (linearizedCellID : Z) : result Z :=
  rem k linearizedCellID (dims c !!! 2%fin).

(** [dims[0] = x; dims[1] = y; dims[2] = z; n_cells = x * y * z;] *)
Definition resize (c : t) (x y z : Z) : t :=
  let c := set_dims c 0%fin x in
  let c := set_dims c 1%fin y in
  let c := set_dims c 2%fin z in
  set_n_cells c (mul k (mul k x y) z).

(** Every member of integer type holds a value of its type. *)
Definition dims_in_range (c : t) : Prop :=
  range k (dims c !!! 0%fin) ∧ range k (dims c !!! 1%fin) ∧ range k (dims c !!! 2%fin).

End CuMC.
Arguments t : clear implicits.
End CuMC.

(** ** The formulas of the specification *)

Module Spec.
Local Open Scope Z_scope.

(** The addressing formulas as the specification writes them, over the
    integers: [linear(x,y,z) = z + dims[2]*(y + dims[1]*x)],
    [x = idx / (dims[2]*dims[1])], [y = (idx/dims[2]) % dims[1]],
    [z = idx % dims[2]], with the truncating [/] and [%] of the
    implementation language. *)
Definition linear (d1 d2 x y z : Z) : Z := z + d2 * (y + d1 * x).
Definition x_of (d1 d2 idx : Z) : Z := idx ÷ (d2 * d1).
Definition y_of (d1 d2 idx : Z) : Z := (idx ÷ d2) `rem` d1.
Definition z_of (d2 idx : Z) : Z := idx `rem` d2.

(** A quotient or remainder of [a] by [b] has a value in the index type
    unless [b] is zero or the quotient is [min / -1]. *)
Definition divides_ok (k : Index.Kind) (a b : Z) : bool :=
  negb (b =? 0) && negb (Index.quot_overflows k a b).

(** [n_cells = dims[0]*dims[1]*dims[2]]. *)
Definition cell_count (d0 d1 d2 : Z) : Z := d0 * d1 * d2.

End Spec.

(** ** The forward pass *)

Module Forward.
Import Index.
Local Open Scope Z_scope.

Section Forward.
Context {Scalar : Type}.
Variable k : Kind.

(** What the specification leaves to its external collaborators:
    - [inside s iso]: the sample [s] lies on the inside of the isovalue;
    - [corner c grid cell j]: the sample at corner [j] of a cell;
    - [mc_verts], [mc_tris]: the case table's vertex and triangle counts;
    - [not_used]: the sentinel of [first_cell_used];
    - [device_alloc n]: the device can provide [n] elements;
    - [generate]: the geometry MeshGenerator writes for the used cells. *)
Variable inside : Scalar → Scalar → bool.
Variable corner : CuMC.t Scalar → list Scalar → Z → nat → Scalar.
Variable mc_verts mc_tris : Z → Z.
Variable not_used : Z.
Variable device_alloc : Z → bool.
Variable generate :
  CuMC.t Scalar → list Scalar → list (Feature.t Scalar) → Scalar →
  list Z * list (Vertex.t Scalar) * list (Feature.t Scalar) * list Z.








End Forward.
End Forward.

(** ** Sample objects *)

(** Integer-valued instances of the templates, on which the statements
    below are evaluated. *)
Definition position_memory : Mem (Vertex.t Z) := λ _, Vertex.mk 2%Z 3%Z 4%Z.
Definition feature_sample : Feature.t Z :=
  Feature.mk [1; 2; 3; 4; 5; 6; 7; 8]%Z.
Definition feature_memory : Mem (Feature.t Z) := λ _, feature_sample.






(** Memories whose objects differ from one location to the next, and a
    context resized to a 4 x 5 x 6 grid with a 32-bit signed index. *)
Definition position_bank : Mem (Vertex.t Z) :=
  λ l, Vertex.mk (Z.of_nat l) (Z.of_nat l + 1)%Z (Z.of_nat l + 2)%Z.
Definition feature_bank : Mem (Feature.t Z) :=
  λ l, Feature.mk ((λ v, v + Z.of_nat l)%Z <$> [1; 2; 3; 4; 5; 6; 7; 8]%Z).
Definition sample_grid_context : CuMC.t unit :=
  CuMC.resize Index.Int32 CuMC.init 4 5 6.

(** ** Orders on the grid *)

(** Lexicographic order on coordinate triples, [x] most significant. *)
Definition lex_lt (p q : Z * Z * Z) : Prop :=
  let '(x, y, z) := p in
  let '(x', y', z') := q in
  (x < x' ∨ (x = x' ∧ (y < y' ∨ (y = y' ∧ z < z'))))%Z.

(** The coordinate triple lies inside the grid of the context. *)
Definition in_grid {Scalar : Type} (c : CuMC.t Scalar) (p : Z * Z * Z) : Prop :=
  let '(x, y, z) := p in
  (0 <= x < CuMC.dims c !!! 0%fin ∧ 0 <= y < CuMC.dims c !!! 1%fin ∧
   0 <= z < CuMC.dims c !!! 2%fin)%Z.

(** * Properties *)

(** ** Index arithmetic *)

Section IndexFacts.
Import Index.
Local Open Scope Z_scope.
Variable k : Kind.

Lemma modulus_pos : 0 < modulus k.
Proof. destruct k; reflexivity. Qed.

Lemma kind_cases :
  (signed k = true ∧ min k = - (max k + 1) ∧ modulus k = 2 * (max k + 1) ∧ 0 < max k)
  ∨ (signed k = false ∧ min k = 0 ∧ modulus k = max k + 1 ∧ 0 < max k).
Proof. destruct k; [left | right | left | right]; repeat split. Qed.

Lemma wrap_range (v : Z) : range k (wrap k v).
Proof.
  pose proof (Z.mod_pos_bound v (modulus k) modulus_pos) as Hu.
  unfold range, wrap.
  destruct kind_cases as [(-> & Hmin & HM & Hmax) | (-> & Hmin & HM & Hmax)];
    cbn [andb].
  - destruct (Z.ltb_spec (max k) (v mod modulus k)); lia.
  - lia.
Qed.

Lemma wrap_small (v : Z) : range k v → wrap k v = v.
Proof.
  pose proof modulus_pos as HMpos.
  unfold range, wrap. intros Hv.
  destruct kind_cases as [(-> & Hmin & HM & Hmax) | (-> & Hmin & HM & Hmax)];
    cbn [andb].
  - destruct (Z_lt_le_dec v 0) as [Hneg | Hpos].
    + assert (Hu : v mod modulus k = v + modulus k)
        by (symmetry; apply (Z.mod_unique v (modulus k) (-1)); lia).
      rewrite Hu. destruct (Z.ltb_spec (max k) (v + modulus k)); lia.
    + rewrite (Z.mod_small v (modulus k)) by lia.
      destruct (Z.ltb_spec (max k) v); lia.
  - apply Z.mod_small; lia.
Qed.

(** [wrap] only looks at the residue modulo [2^bits]. *)
Lemma wrap_congr (a b : Z) :
  a mod modulus k = b mod modulus k → wrap k a = wrap k b.
Proof. unfold wrap. intros ->. reflexivity. Qed.

Lemma wrap_mod (v : Z) : wrap k v mod modulus k = v mod modulus k.
Proof.
  pose proof modulus_pos as HM. unfold wrap.
  destruct (signed k && (max k <? v mod modulus k)).
  - rewrite <- (Z.mod_add _ 1 (modulus k)) by lia.
    replace (v mod modulus k - modulus k + 1 * modulus k) with (v mod modulus k) by lia.
    apply Z.mod_mod. lia.
  - apply Z.mod_mod. lia.
Qed.

Lemma wrap_add_r (a b : Z) : wrap k (a + wrap k b) = wrap k (a + b).
Proof.
  apply wrap_congr. rewrite Z.add_mod by (pose proof modulus_pos; lia).
  rewrite wrap_mod. rewrite <- Z.add_mod by (pose proof modulus_pos; lia). reflexivity.
Qed.

Lemma wrap_mul_r (a b : Z) : wrap k (a * wrap k b) = wrap k (a * b).
Proof.
  apply wrap_congr. rewrite Z.mul_mod by (pose proof modulus_pos; lia).
  rewrite wrap_mod. rewrite <- Z.mul_mod by (pose proof modulus_pos; lia). reflexivity.
Qed.

Lemma wrap_mul_l (a b : Z) : wrap k (wrap k a * b) = wrap k (a * b).
Proof. rewrite (Z.mul_comm (wrap k a)), wrap_mul_r. f_equal. lia. Qed.

End IndexFacts.

Section DivisionFacts.
Import Index.
Local Open Scope Z_scope.
Variable k : Kind.

Lemma quot_overflows_pos (a b : Z) : 0 < b → quot_overflows k a b = false.
Proof.
  intros Hb. unfold quot_overflows.
  destruct (Z.eqb_spec b (-1)); [lia |]. apply andb_false_r.
Qed.

Lemma div_pos (a b : Z) : 0 < b → div k a b = Ok (a ÷ b).
Proof.
  intros Hb. unfold div. rewrite quot_overflows_pos by done.
  destruct (Z.eqb_spec b 0); [lia | reflexivity].
Qed.

Lemma rem_pos (a b : Z) : 0 < b → rem k a b = Ok (a `rem` b).
Proof.
  intros Hb. unfold rem. rewrite quot_overflows_pos by done.
  destruct (Z.eqb_spec b 0); [lia | reflexivity].
Qed.

Lemma div_zero (a : Z) : div k a 0 = Err UndefinedBehaviour.
Proof. reflexivity. Qed.

Lemma rem_zero (a : Z) : rem k a 0 = Err UndefinedBehaviour.
Proof. reflexivity. Qed.

End DivisionFacts.

(** ** resize *)

Section Resize.
Import Index.
Local Open Scope Z_scope.
Context {Scalar : Type}.
Variable k : Kind.
Implicit Types c : CuMC.t Scalar.

(** C4. [resize] establishes the grid dimensions and the cell count: for
    every context and every argument triple, after [resize(x,y,z)] the state
    has [dims[0] = x], [dims[1] = y], [dims[2] = z] and [n_cells = x*y*z],
    the product taken in the index type, which is the integer product
    reduced modulo [2^bits]. *)
Theorem resize_establishes_dims_and_n_cells c (x y z : Z) :
  let c' := CuMC.resize k c x y z in
  CuMC.dims c' !!! 0%fin = x ∧
  CuMC.dims c' !!! 1%fin = y ∧
  CuMC.dims c' !!! 2%fin = z ∧
  CuMC.n_cells c' = mul k (mul k x y) z ∧
  CuMC.n_cells c' = wrap k (Spec.cell_count x y z).
Proof.
  cbn zeta. unfold CuMC.resize. cbn [CuMC.dims CuMC.n_cells CuMC.set_dims CuMC.set_n_cells].
  repeat split.
  - rewrite !vlookup_insert_ne by done. apply vlookup_insert.
  - rewrite vlookup_insert_ne by done. apply vlookup_insert.
  - apply vlookup_insert.
  - unfold mul, Spec.cell_count. apply wrap_mul_l.
Qed.

(** C9. [resize] modifies only [dims[0..2]] and [n_cells]: the derived
    counts, every allocated capacity and every buffer are what they were; it
    neither clears nor releases prior classification state. *)
Theorem resize_frame c (x y z : Z) :
  let c' := CuMC.resize k c x y z in
  CuMC.n_used_cells c' = CuMC.n_used_cells c ∧
  CuMC.n_verts c' = CuMC.n_verts c ∧
  CuMC.n_tris c' = CuMC.n_tris c ∧
  CuMC.allocated_temp_storage_size c' = CuMC.allocated_temp_storage_size c ∧
  CuMC.temp_storage c' = CuMC.temp_storage c ∧
  CuMC.allocated_cell_count c' = CuMC.allocated_cell_count c ∧
  CuMC.first_cell_used c' = CuMC.first_cell_used c ∧
  CuMC.allocated_used_cell_count c' = CuMC.allocated_used_cell_count c ∧
  CuMC.used_cell_index c' = CuMC.used_cell_index c ∧
  CuMC.used_to_first_mc_vert c' = CuMC.used_to_first_mc_vert c ∧
  CuMC.used_cell_code c' = CuMC.used_cell_code c ∧
  CuMC.used_to_first_mc_tri c' = CuMC.used_to_first_mc_tri c ∧
  CuMC.allocated_vert_count c' = CuMC.allocated_vert_count c ∧
  CuMC.verts_type c' = CuMC.verts_type c ∧
  CuMC.verts c' = CuMC.verts c ∧
  CuMC.feats c' = CuMC.feats c ∧
  CuMC.allocated_tri_count c' = CuMC.allocated_tri_count c ∧
  CuMC.tris c' = CuMC.tris c.
Proof. cbn zeta. repeat split. Qed.

End Resize.

(** ** Grid addressing *)

Section Addressing.
Import Index.
Local Open Scope Z_scope.
Context {Scalar : Type}.
Variable k : Kind.
Implicit Types c : CuMC.t Scalar.

Lemma gA_wrap c (x y z : Z) :
  CuMC.gA k c x y z
  = wrap k (Spec.linear (CuMC.dims c !!! 1%fin) (CuMC.dims c !!! 2%fin) x y z).
Proof.
  unfold CuMC.gA, Spec.linear, add, mul.
  rewrite (wrap_add_r k y). rewrite (wrap_mul_r k (CuMC.dims c !!! 2%fin)).
  apply wrap_add_r.
Qed.

(** C2. The linearization and its inverses compute the formulas of the
    specification.  For every context and all arguments, [gA(x,y,z)] is the
    integer [z + dims[2]*(y + dims[1]*x)] brought into the index type (the
    integer itself when it is representable); [gX], [gY] and [gZ] are
    [idx / (dims[2]*dims[1])], [(idx/dims[2]) % dims[1]] and [idx % dims[2]]
    with truncating division, the product [dims[2]*dims[1]] taken in the
    index type (the integer product when it is representable); they have no
    value exactly where the formula divides by zero or takes [min / -1]. *)
Theorem addressing_computes_formulas c (x y z idx : Z) :
  let d1 := CuMC.dims c !!! 1%fin in
  let d2 := CuMC.dims c !!! 2%fin in
  let p := mul k d2 d1 in
  CuMC.gA k c x y z = wrap k (Spec.linear d1 d2 x y z) ∧
  (range k (Spec.linear d1 d2 x y z) → CuMC.gA k c x y z = Spec.linear d1 d2 x y z) ∧
  CuMC.gX k c idx
  = (if Spec.divides_ok k idx p then Ok (idx ÷ p) else Err UndefinedBehaviour) ∧
  (range k (d2 * d1) → idx ÷ p = Spec.x_of d1 d2 idx) ∧
  CuMC.gY k c idx
  = (if Spec.divides_ok k idx d2 && Spec.divides_ok k (idx ÷ d2) d1
     then Ok (Spec.y_of d1 d2 idx) else Err UndefinedBehaviour) ∧
  CuMC.gZ k c idx
  = (if Spec.divides_ok k idx d2 then Ok (Spec.z_of d2 idx) else Err UndefinedBehaviour).
Proof.
  cbn zeta. repeat apply conj.
  - apply gA_wrap.
  - intros Hr. rewrite gA_wrap. by apply wrap_small.
  - unfold CuMC.gX, div, Spec.divides_ok.
    destruct (_ =? 0); [reflexivity |]. by destruct (quot_overflows _ _ _).
  - intros Hr. unfold Spec.x_of, mul. by rewrite wrap_small.
  - unfold CuMC.gY, div, rem, Spec.divides_ok, Spec.y_of.
    destruct (CuMC.dims c !!! 2%fin =? 0); [reflexivity |].
    destruct (quot_overflows k idx _); [reflexivity |]. cbn.
    destruct (CuMC.dims c !!! 1%fin =? 0); [reflexivity |].
    by destruct (quot_overflows k _ _).
  - unfold CuMC.gZ, rem, Spec.divides_ok, Spec.z_of.
    destruct (_ =? 0); [reflexivity |]. by destruct (quot_overflows _ _ _).
Qed.

(** C3, as the code has it.  Grid addressing has no failure modes on a
    context whose [dims[1]], [dims[2]] and product [dims[2]*dims[1]] (in the
    index type) are positive: there [gX], [gY] and [gZ] have a value at every
    linearized cell id.  (On a context that was never resized the dims are
    zero and all three divide by zero.) *)
Theorem addressing_total_on_positive_dims c (idx : Z) :
  0 < CuMC.dims c !!! 1%fin →
  0 < CuMC.dims c !!! 2%fin →
  0 < mul k (CuMC.dims c !!! 2%fin) (CuMC.dims c !!! 1%fin) →
  succeeds (CuMC.gX k c idx) ∧ succeeds (CuMC.gY k c idx) ∧ succeeds (CuMC.gZ k c idx).
Proof.
  intros H1 H2 Hp. unfold succeeds, CuMC.gX, CuMC.gY, CuMC.gZ. repeat split.
  - rewrite div_pos by done. eauto.
  - rewrite div_pos by done. cbn. rewrite rem_pos by done. eauto.
  - rewrite rem_pos by done. eauto.
Qed.

End Addressing.

Section RoundTrip.
Import Index.
Local Open Scope Z_scope.
Context {Scalar : Type}.
Variable k : Kind.
Implicit Types c : CuMC.t Scalar.

Lemma range_nonneg (v : Z) : 0 <= v <= max k → range k v.
Proof.
  unfold range. destruct (kind_cases k) as [(_ & ? & _ & ?) | (_ & ? & _ & ?)]; lia.
Qed.

Lemma quot_unique (a b q r : Z) : 0 < b → 0 <= q → 0 <= r < b → a = b * q + r → a ÷ b = q.
Proof.
  intros Hb Hq Hr ->. rewrite Z.quot_div_nonneg by nia.
  symmetry. apply (Z.div_unique _ b q r); [lia | reflexivity].
Qed.

Lemma rem_unique (a b q r : Z) : 0 < b → 0 <= q → 0 <= r < b → a = b * q + r → a `rem` b = r.
Proof.
  intros Hb Hq Hr ->. rewrite Z.rem_mod_nonneg by nia.
  symmetry. apply (Z.mod_unique _ b q r); [lia | reflexivity].
Qed.

(** The forward direction: coordinates, linear index, coordinates. *)
Lemma coordinates_round_trip c (x y z : Z) :
  let d0 := CuMC.dims c !!! 0%fin in
  let d1 := CuMC.dims c !!! 1%fin in
  let d2 := CuMC.dims c !!! 2%fin in
  Spec.cell_count d0 d1 d2 <= max k →
  0 <= x < d0 → 0 <= y < d1 → 0 <= z < d2 →
  CuMC.gX k c (CuMC.gA k c x y z) = Ok x ∧
  CuMC.gY k c (CuMC.gA k c x y z) = Ok y ∧
  CuMC.gZ k c (CuMC.gA k c x y z) = Ok z.
Proof.
  cbn zeta. unfold Spec.cell_count.
  set (d0 := CuMC.dims c !!! 0%fin). set (d1 := CuMC.dims c !!! 1%fin).
  set (d2 := CuMC.dims c !!! 2%fin). intros Hfit Hx Hy Hz.
  assert (Hq : 0 <= y + d1 * x <= d0 * d1 - 1) by nia.
  assert (Hq2 : d2 * (y + d1 * x) <= d2 * (d0 * d1 - 1)) by (apply Z.mul_le_mono_nonneg_l; lia).
  assert (Hp0 : 0 < d2 * d1) by (apply Z.mul_pos_pos; lia).
  assert (Hp : d2 * d1 <= d0 * d1 * d2)
    by (replace (d0 * d1 * d2) with (d0 * (d2 * d1)) by ring; nia).
  assert (HL : 0 <= Spec.linear d1 d2 x y z <= max k) by (unfold Spec.linear; nia).
  rewrite gA_wrap. fold d1 d2. rewrite wrap_small by (by apply range_nonneg).
  unfold CuMC.gX, CuMC.gY, CuMC.gZ. fold d1 d2.
  unfold mul. rewrite (wrap_small k (d2 * d1)) by (apply range_nonneg; lia).
  rewrite !div_pos, rem_pos by lia. cbn. rewrite rem_pos by lia.
  unfold Spec.linear in *.
  rewrite (quot_unique _ (d2 * d1) x (z + d2 * y)) by nia.
  rewrite (quot_unique _ d2 (y + d1 * x) z) by nia.
  rewrite (rem_unique (y + d1 * x) d1 x y) by nia.
  rewrite (rem_unique _ d2 (y + d1 * x) z) by nia.
  done.
Qed.

(** The backward direction: linear index, coordinates, linear index. *)
Lemma index_round_trip c (idx : Z) :
  let d1 := CuMC.dims c !!! 1%fin in
  let d2 := CuMC.dims c !!! 2%fin in
  0 < d1 → 0 < d2 → d2 * d1 <= max k → 0 <= idx <= max k →
  (x ← CuMC.gX k c idx; y ← CuMC.gY k c idx; z ← CuMC.gZ k c idx;
   mret (CuMC.gA k c x y z)) = Ok idx.
Proof.
  cbn zeta.
  set (d1 := CuMC.dims c !!! 1%fin). set (d2 := CuMC.dims c !!! 2%fin).
  intros H1 H2 Hp Hidx.
  unfold CuMC.gX, CuMC.gY, CuMC.gZ. fold d1 d2.
  unfold mul. rewrite (wrap_small k (d2 * d1)) by (apply range_nonneg; nia).
  rewrite !div_pos, rem_pos by nia. cbn. rewrite rem_pos by lia. cbn.
  rewrite !Z.quot_div_nonneg, !Z.rem_mod_nonneg by (try apply Z.div_pos; nia).
  f_equal. rewrite gA_wrap. fold d1 d2. unfold Spec.linear.
  rewrite <- Z.div_div by lia.
  pose proof (Z.div_mod idx d2 ltac:(lia)) as Hdm.
  pose proof (Z.div_mod (idx / d2) d1 ltac:(lia)) as Hdm'.
  replace (idx mod d2 + d2 * ((idx / d2) mod d1 + d1 * (idx / d2 / d1))) with idx by lia.
  apply wrap_small. by apply range_nonneg.
Qed.

End RoundTrip.

Section RoundTripClaims.
Import Index.
Local Open Scope Z_scope.

(** C1, as the code has it.  Grid addressing is a round-trip bijection on
    every context whose dims are all positive and whose cell count
    [dims[0]*dims[1]*dims[2]] is representable in the index type, [n_cells]
    being as [resize] leaves it: coordinates inside the grid are recovered
    from their linear index, and every linear index in [0, n_cells) is
    recovered from its coordinates. *)
Theorem addressing_round_trip {Scalar : Type} (k : Kind) (c : CuMC.t Scalar)
    (x y z idx : Z) :
  let d0 := CuMC.dims c !!! 0%fin in
  let d1 := CuMC.dims c !!! 1%fin in
  let d2 := CuMC.dims c !!! 2%fin in
  0 < d0 → 0 < d1 → 0 < d2 →
  Spec.cell_count d0 d1 d2 <= max k →
  CuMC.n_cells c = mul k (mul k d0 d1) d2 →
  (0 <= x < d0 → 0 <= y < d1 → 0 <= z < d2 →
   CuMC.gX k c (CuMC.gA k c x y z) = Ok x ∧
   CuMC.gY k c (CuMC.gA k c x y z) = Ok y ∧
   CuMC.gZ k c (CuMC.gA k c x y z) = Ok z) ∧
  (0 <= idx < CuMC.n_cells c →
   (x' ← CuMC.gX k c idx; y' ← CuMC.gY k c idx; z' ← CuMC.gZ k c idx;
    mret (CuMC.gA k c x' y' z')) = Ok idx).
Proof.
  cbn zeta. unfold Spec.cell_count. intros H0 H1 H2 Hfit Hn. split.
  - intros Hx Hy Hz. by apply coordinates_round_trip.
  - assert (Hcells : mul k (mul k (CuMC.dims c !!! 0%fin) (CuMC.dims c !!! 1%fin))
                       (CuMC.dims c !!! 2%fin)
                     = CuMC.dims c !!! 0%fin * CuMC.dims c !!! 1%fin * CuMC.dims c !!! 2%fin).
    { unfold mul. rewrite wrap_mul_l. apply wrap_small, range_nonneg. nia. }
    rewrite Hn, Hcells. intros Hidx.
    apply index_round_trip; [done | done | | lia].
    transitivity (CuMC.dims c !!! 0%fin * (CuMC.dims c !!! 2%fin * CuMC.dims c !!! 1%fin));
      [nia | lia].
Qed.

Lemma addressing_round_trip_witness :
  let c := CuMC.resize Int32 (CuMC.init (Scalar := unit)) 4 5 6 in
  CuMC.gX Int32 c (CuMC.gA Int32 c 3 4 5) = Ok 3 ∧
  CuMC.gY Int32 c (CuMC.gA Int32 c 3 4 5) = Ok 4 ∧
  CuMC.gZ Int32 c (CuMC.gA Int32 c 3 4 5) = Ok 5 ∧
  (x' ← CuMC.gX Int32 c 119; y' ← CuMC.gY Int32 c 119; z' ← CuMC.gZ Int32 c 119;
   mret (CuMC.gA Int32 c x' y' z')) = Ok 119.
Proof.
  cbn zeta.
  destruct (addressing_round_trip Int32
              (CuMC.resize Int32 (CuMC.init (Scalar := unit)) 4 5 6) 3 4 5 119)
    as [Hfwd Hback]; try (vm_compute; congruence).
  destruct Hfwd as (Hx & Hy & Hz); try (vm_compute; split; congruence).
  split; [exact Hx | split; [exact Hy | split; [exact Hz |]]].
  apply Hback. vm_compute; split; congruence.
Defined.

(** C1 as stated fails once the cell count overflows: with a 32-bit signed
    index and a 2048 x 2048 x 2048 grid, the corner cell (2047, 2047, 2047)
    is linearized to -1, whose x coordinate is 0. *)
Lemma round_trip_fails_on_overflow :
  let c := CuMC.resize Int32 (CuMC.init (Scalar := unit)) 2048 2048 2048 in
  (0 < CuMC.dims c !!! 0%fin ∧ 0 < CuMC.dims c !!! 1%fin ∧ 0 < CuMC.dims c !!! 2%fin) ∧
  (0 <= 2047 < CuMC.dims c !!! 0%fin ∧ 0 <= 2047 < CuMC.dims c !!! 1%fin ∧
   0 <= 2047 < CuMC.dims c !!! 2%fin) ∧
  CuMC.gA Int32 c 2047 2047 2047 = -1 ∧
  CuMC.gX Int32 c (CuMC.gA Int32 c 2047 2047 2047) = Ok 0 ∧
  CuMC.gX Int32 c (CuMC.gA Int32 c 2047 2047 2047) ≠ Ok 2047.
Proof. vm_compute. repeat split; congruence. Qed.

Lemma addressing_total_witness :
  let c := CuMC.resize Int32 (CuMC.init (Scalar := unit)) 4 5 6 in
  succeeds (CuMC.gX Int32 c 119) ∧ succeeds (CuMC.gY Int32 c 119) ∧
  succeeds (CuMC.gZ Int32 c 119).
Proof.
  cbn zeta. apply addressing_total_on_positive_dims; vm_compute; reflexivity.
Defined.

(** C3 as stated fails on the context it names: before [resize] the dims are
    zero and each of [gX], [gY], [gZ] divides by zero. *)
Lemma addressing_fails_before_resize :
  let c := CuMC.init (Scalar := unit) in
  CuMC.dims c = [# 0; 0; 0] ∧
  CuMC.gX Int32 c 0 = Err UndefinedBehaviour ∧
  CuMC.gY Int32 c 0 = Err UndefinedBehaviour ∧
  CuMC.gZ Int32 c 0 = Err UndefinedBehaviour ∧
  ¬ succeeds (CuMC.gX Int32 c 0).
Proof.
  cbn zeta. repeat split. intros [a Ha]. vm_compute in Ha. discriminate.
Qed.

Lemma addressing_formulas_witness :
  let c := CuMC.resize Int32 (CuMC.init (Scalar := unit)) 4 5 6 in
  CuMC.gA Int32 c 3 4 5 = Spec.linear 5 6 3 4 5 ∧
  CuMC.gX Int32 c 119 = Ok (Spec.x_of 5 6 119) ∧
  CuMC.gY Int32 c 119 = Ok (Spec.y_of 5 6 119) ∧
  CuMC.gZ Int32 c 119 = Ok (Spec.z_of 6 119).
Proof.
  cbn zeta.
  destruct (addressing_computes_formulas Int32
              (CuMC.resize Int32 (CuMC.init (Scalar := unit)) 4 5 6) 3 4 5 119)
    as (_ & HA & HX & Hx & HY & HZ).
  split; [| split; [| split]].
  - apply HA. vm_compute. split; congruence.
  - rewrite HX. rewrite Hx by (vm_compute; split; congruence). reflexivity.
  - apply HY.
  - apply HZ.
Defined.

End RoundTripClaims.

(** ** Loops over the slots of a feature *)

Section Loops.
Context {T : Type} `{ScalarOps T}.
Implicit Types (f r : Feature.t T) (m : Mem (Feature.t T)).

Lemma for_range_ext {X : Type} (body body' : nat → X → X) (start count : nat) (s : X) :
  (∀ i s, start ≤ i < start + count → body i s = body' i s) →
  for_range start count body s = for_range start count body' s.
Proof.
  revert start s. induction count as [| count IH]; intros start s Hext; [done |].
  cbn. rewrite Hext by lia. apply IH. intros i s' Hi. apply Hext. lia.
Qed.

Lemma get_set_ne f (i j : nat) (v : T) :
  i ≠ j → Feature.get (Feature.set f j v) i = Feature.get f i.
Proof.
  intros Hne. unfold Feature.get, Feature.set. cbn.
  by rewrite list_lookup_insert_ne.
Qed.

(** A loop that stores into slot [i] of the object at [this] a value [v m i]
    computed from the current memory, where later values do not depend on
    earlier slots, is the loop that fills a copy of the object with the
    values computed from the initial memory. *)
Lemma inplace_loop (v : Mem (Feature.t T) → nat → T) (this : loc) (start count : nat) m :
  (∀ m j x i, j < i → v (<[this := Feature.set (m this) j x]> m) i = v m i) →
  for_range start count (λ i m, <[this := Feature.set (m this) i (v m i)]> m) m this
  = for_range start count (λ i r, Feature.set r i (v m i)) (m this).
Proof.
  intros Hstable. revert start m.
  induction count as [| count IH]; intros start m; [done |].
  cbn [for_range]. rewrite IH. cbv beta. rewrite fn_lookup_insert.
  apply for_range_ext. intros i r Hi. f_equal. apply Hstable. lia.
Qed.

(** A loop over all [SIZE] slots overwrites the whole array. *)
Lemma fill_all (g : nat → T) r :
  Feature.wf r →
  for_range 0 Feature.SIZE (λ i r, Feature.set r i (g i)) r
  = Feature.mk [g 0; g 1; g 2; g 3; g 4; g 5; g 6; g 7].
Proof.
  destruct r as [l]. unfold Feature.wf. cbn [Feature.data]. intros Hlen.
  do 9 (destruct l as [| ? l]; try discriminate Hlen). reflexivity.
Qed.

Lemma get_filled (g : nat → T) (i : nat) :
  i < Feature.SIZE →
  Feature.get (Feature.mk [g 0; g 1; g 2; g 3; g 4; g 5; g 6; g 7]) i = g i.
Proof.
  unfold Feature.SIZE. intros Hi.
  do 8 (destruct i as [| i]; [reflexivity |]). lia.
Qed.

End Loops.

(** ** Position: [Vertex] *)

Section VertexClaims.
Context {T : Type} `{ScalarOps T}.
Implicit Types (a b : Vertex.t T) (m : Mem (Vertex.t T)).

(** C6. Position supports the full operation set with componentwise
    semantics: [a + b], [a - b], [a * b] are the componentwise sum,
    difference and product on (x, y, z), [a * s] scales each component by
    [s], and [a.dot(b) = a.x*b.x + a.y*b.y + a.z*b.z].  Called through
    references (which may alias), the binary operations return that value
    and leave the memory, hence both operands, as it was. *)
Theorem vertex_operations_componentwise a b (s : T) m (this other : loc)
    (scalar : Vertex.sref T) :
  Vertex.add a b
  = Vertex.mk (Vertex.x a ⊕ Vertex.x b) (Vertex.y a ⊕ Vertex.y b) (Vertex.z a ⊕ Vertex.z b) ∧
  Vertex.sub a b
  = Vertex.mk (Vertex.x a ⊖ Vertex.x b) (Vertex.y a ⊖ Vertex.y b) (Vertex.z a ⊖ Vertex.z b) ∧
  Vertex.mul a b
  = Vertex.mk (Vertex.x a ⊗ Vertex.x b) (Vertex.y a ⊗ Vertex.y b) (Vertex.z a ⊗ Vertex.z b) ∧
  Vertex.scale a s
  = Vertex.mk (Vertex.x a ⊗ s) (Vertex.y a ⊗ s) (Vertex.z a ⊗ s) ∧
  Vertex.dot a b
  = Vertex.x a ⊗ Vertex.x b ⊕ Vertex.y a ⊗ Vertex.y b ⊕ Vertex.z a ⊗ Vertex.z b ∧
  (eval (Vertex.call Vertex.add this other) m = Vertex.add (m this) (m other) ∧
   eval (Vertex.call Vertex.sub this other) m = Vertex.sub (m this) (m other) ∧
   eval (Vertex.call Vertex.mul this other) m = Vertex.mul (m this) (m other) ∧
   eval (Vertex.call Vertex.dot this other) m = Vertex.dot (m this) (m other) ∧
   eval (Vertex.call_scale this scalar) m
   = Vertex.scale (m this) (eval (Vertex.deref scalar) m)) ∧
  (exec (Vertex.call Vertex.add this other) m = m ∧
   exec (Vertex.call Vertex.sub this other) m = m ∧
   exec (Vertex.call Vertex.mul this other) m = m ∧
   exec (Vertex.call Vertex.dot this other) m = m ∧
   exec (Vertex.call_scale this scalar) m = m).
Proof.
  repeat apply conj; try reflexivity; by destruct scalar.
Qed.

Lemma vertex_add_assign m (this other : loc) :
  exec (Vertex.add_assign this other) m this = Vertex.add (m this) (m other).
Proof.
  unfold Vertex.add_assign, exec, mbind, St_bind, load, store, mret, St_ret.
  cbn [fst snd]. destruct (decide (this = other)) as [<- | Hne].
  - rewrite !fn_lookup_insert. reflexivity.
  - rewrite !fn_lookup_insert, !fn_lookup_insert_ne by done. reflexivity.
Qed.

Lemma vertex_sub_assign m (this other : loc) :
  exec (Vertex.sub_assign this other) m this = Vertex.sub (m this) (m other).
Proof.
  unfold Vertex.sub_assign, exec, mbind, St_bind, load, store, mret, St_ret.
  cbn [fst snd]. destruct (decide (this = other)) as [<- | Hne].
  - rewrite !fn_lookup_insert. reflexivity.
  - rewrite !fn_lookup_insert, !fn_lookup_insert_ne by done. reflexivity.
Qed.

Lemma vertex_scale_assign m (this : loc) (scalar : Vertex.sref T) :
  Vertex.apart this scalar →
  exec (Vertex.scale_assign this scalar) m this
  = Vertex.scale (m this) (eval (Vertex.deref scalar) m).
Proof.
  intros Hapart.
  destruct scalar as [s | l f]; cbn [Vertex.deref Vertex.apart] in *;
    unfold Vertex.scale_assign, Vertex.deref, exec, eval, mbind, St_bind, load,
      store, mret, St_ret; cbn [fst snd].
  - rewrite !fn_lookup_insert. reflexivity.
  - rewrite !fn_lookup_insert. rewrite !fn_lookup_insert_ne by done. reflexivity.
Qed.

End VertexClaims.

(** ** FeatureVector: [Feature] *)

Section FeatureFacts.
Context {T : Type} `{ScalarOps T}.
Implicit Types (a b r : Feature.t T) (m : Mem (Feature.t T)).

Lemma zipped_wf op a b : Feature.wf (Feature.zipped op a b).
Proof. reflexivity. Qed.

Lemma get_zipped op a b (i : nat) :
  i < Feature.SIZE →
  Feature.get (Feature.zipped op a b) i = op (Feature.get a i) (Feature.get b i).
Proof. apply (get_filled (λ i, op (Feature.get a i) (Feature.get b i))). Qed.

Lemma add_value a b r : Feature.wf r → Feature.add a b r = Feature.zipped sadd a b.
Proof. apply (fill_all (λ i, Feature.get a i ⊕ Feature.get b i)). Qed.

Lemma sub_value a b r : Feature.wf r → Feature.sub a b r = Feature.zipped ssub a b.
Proof. apply (fill_all (λ i, Feature.get a i ⊖ Feature.get b i)). Qed.

Lemma mul_value a b r : Feature.wf r → Feature.mul a b r = Feature.zipped smul a b.
Proof. apply (fill_all (λ i, Feature.get a i ⊗ Feature.get b i)). Qed.

Lemma scale_value a (s : T) r :
  Feature.wf r → Feature.scale a s r = Feature.zipped (λ u _, u ⊗ s) a a.
Proof. apply (fill_all (λ i, Feature.get a i ⊗ s)). Qed.

(** Slot [i] of [this] and of [other] is still the initial one when the loop
    reaches it, also when [other] is [this]. *)
Lemma zip_stable (op : T → T → T) (this other : loc) m (j : nat) (x : T) (i : nat) :
  j < i →
  op (Feature.get (<[this := Feature.set (m this) j x]> m this) i)
     (Feature.get (<[this := Feature.set (m this) j x]> m other) i)
  = op (Feature.get (m this) i) (Feature.get (m other) i).
Proof.
  intros Hji. rewrite fn_lookup_insert.
  destruct (decide (this = other)) as [<- | Hne].
  - rewrite fn_lookup_insert. by rewrite get_set_ne by lia.
  - rewrite fn_lookup_insert_ne by done. by rewrite get_set_ne by lia.
Qed.

(** The in-place loop that combines slot [i] of [this] with slot [i] of
    [other] leaves in [this] the slot-wise combination of the two pre-states. *)
Lemma zip_loop_value (op : T → T → T) m (this other : loc) :
  Feature.wf (m this) →
  for_range 0 Feature.SIZE
    (λ i m, <[this := Feature.set (m this) i
                         (op (Feature.get (m this) i) (Feature.get (m other) i))]> m)
    m this
  = Feature.zipped op (m this) (m other).
Proof.
  intros Hwf.
  rewrite (inplace_loop (λ m i, op (Feature.get (m this) i) (Feature.get (m other) i)))
    by (intros; by apply zip_stable).
  by apply (fill_all (λ i, op (Feature.get (m this) i) (Feature.get (m other) i))).
Qed.

Lemma add_assign_value m (this other : loc) :
  Feature.wf (m this) →
  exec (Feature.add_assign this other) m this = Feature.zipped sadd (m this) (m other).
Proof. apply (zip_loop_value sadd). Qed.

Lemma sub_assign_value m (this other : loc) :
  Feature.wf (m this) →
  exec (Feature.sub_assign this other) m this = Feature.zipped ssub (m this) (m other).
Proof. apply (zip_loop_value ssub). Qed.

(** [atomicAddWapper] issues the stores of [+=], one [atomicAdd] per slot. *)
Lemma atomicAddWapper_value m (this other : loc) :
  Feature.wf (m this) →
  exec (Feature.atomicAddWapper this other) m this
  = Feature.zipped sadd (m this) (m other).
Proof. apply (zip_loop_value sadd). Qed.

Lemma deref_stable (this : loc) (scalar : Feature.sref T) m (j : nat) (x : T) :
  Feature.apart this scalar →
  eval (Feature.deref scalar) (<[this := Feature.set (m this) j x]> m)
  = eval (Feature.deref scalar) m.
Proof.
  destruct scalar as [s | l i]; cbn [Feature.apart]; intros Hapart; [done |].
  unfold Feature.deref, eval, mbind, St_bind, load, mret, St_ret. cbn [fst].
  by rewrite fn_lookup_insert_ne.
Qed.

Lemma scale_assign_value m (this : loc) (scalar : Feature.sref T) :
  Feature.apart this scalar → Feature.wf (m this) →
  exec (Feature.scale_assign this scalar) m this
  = Feature.zipped (λ u _, u ⊗ eval (Feature.deref scalar) m) (m this) (m this).
Proof.
  intros Hapart Hwf.
  transitivity (for_range 0 Feature.SIZE
    (λ i r, Feature.set r i (Feature.get (m this) i ⊗ eval (Feature.deref scalar) m))
    (m this)).
  - destruct scalar as [s | l i'].
    + apply (inplace_loop (λ m i, Feature.get (m this) i ⊗ s)).
      intros m' j x i Hji. rewrite fn_lookup_insert. by rewrite get_set_ne by lia.
    + apply (inplace_loop
               (λ m i, Feature.get (m this) i ⊗ eval (Feature.deref (Feature.Slot l i')) m)).
      intros m' j x i Hji. rewrite deref_stable by done.
      rewrite fn_lookup_insert. by rewrite get_set_ne by lia.
  - by apply (fill_all (λ i, Feature.get (m this) i ⊗ eval (Feature.deref scalar) m)).
Qed.

End FeatureFacts.

Section FeatureClaims.
Context {T : Type} `{ScalarOps T}.
Implicit Types (a b r : Feature.t T) (m : Mem (Feature.t T)).

(** C5. Every FeatureVector operation acts componentwise over exactly 8
    components: [SIZE] is 8; on a result object of [SIZE] slots, [a + b],
    [a - b], [a * b] and [a * s] have [SIZE] slots, slot [i] holding
    [a.data[i] + b.data[i]], [a.data[i] - b.data[i]], [a.data[i] * b.data[i]]
    and [a.data[i] * s]; [a.dot(b)] is the sum over [i] of
    [a.data[i] * b.data[i]], accumulated from zero in index order; and
    [atomicAddWapper(b)] adds [b.data[i]] into [a.data[i]], for all
    [0 <= i < 8]. *)
Theorem feature_operations_componentwise a b r (s : T) m (this other : loc) :
  Feature.wf r → Feature.wf (m this) →
  Feature.SIZE = 8 ∧
  (Feature.wf (Feature.add a b r) ∧ Feature.wf (Feature.sub a b r) ∧
   Feature.wf (Feature.mul a b r) ∧ Feature.wf (Feature.scale a s r) ∧
   Feature.wf (exec (Feature.atomicAddWapper this other) m this)) ∧
  (∀ i : nat, i < Feature.SIZE →
     Feature.get (Feature.add a b r) i = Feature.get a i ⊕ Feature.get b i ∧
     Feature.get (Feature.sub a b r) i = Feature.get a i ⊖ Feature.get b i ∧
     Feature.get (Feature.mul a b r) i = Feature.get a i ⊗ Feature.get b i ∧
     Feature.get (Feature.scale a s r) i = Feature.get a i ⊗ s ∧
     Feature.get (exec (Feature.atomicAddWapper this other) m this) i
     = Feature.get (m this) i ⊕ Feature.get (m other) i) ∧
  Feature.dot a b
  = szero ⊕ Feature.get a 0 ⊗ Feature.get b 0 ⊕ Feature.get a 1 ⊗ Feature.get b 1
          ⊕ Feature.get a 2 ⊗ Feature.get b 2 ⊕ Feature.get a 3 ⊗ Feature.get b 3
          ⊕ Feature.get a 4 ⊗ Feature.get b 4 ⊕ Feature.get a 5 ⊗ Feature.get b 5
          ⊕ Feature.get a 6 ⊗ Feature.get b 6 ⊕ Feature.get a 7 ⊗ Feature.get b 7.
Proof.
  intros Hr Hm.
  rewrite add_value, sub_value, mul_value, scale_value, atomicAddWapper_value by done.
  split; [reflexivity |]. split; [repeat split |]. split; [| reflexivity].
  intros i Hi. rewrite !get_zipped by done. done.
Qed.

End FeatureClaims.

(** ** Compound assignment and commutativity, on both vector types *)

Section VectorClaims.
Context {T : Type} `{ScalarOps T}.

(** C7, as the code has it.  Compound assignment agrees with the binary
    operations on both Position and FeatureVector: [a += b] leaves [a] equal
    to the value of [a + b] computed from the pre-state and [a -= b] to that
    of [a - b], whether or not [b] is [a] itself; [a *= s] leaves [a] equal
    to [a * s] when the reference [s] does not point into [a]. *)
Theorem compound_assignment_agrees (mv : Mem (Vertex.t T)) (mf : Mem (Feature.t T))
    (this other : loc) (sv : Vertex.sref T) (sf : Feature.sref T) (r : Feature.t T) :
  Vertex.apart this sv → Feature.apart this sf →
  Feature.wf (mf this) → Feature.wf r →
  (exec (Vertex.add_assign this other) mv this = Vertex.add (mv this) (mv other) ∧
   exec (Vertex.sub_assign this other) mv this = Vertex.sub (mv this) (mv other) ∧
   exec (Vertex.scale_assign this sv) mv this
   = Vertex.scale (mv this) (eval (Vertex.deref sv) mv)) ∧
  (exec (Feature.add_assign this other) mf this = Feature.add (mf this) (mf other) r ∧
   exec (Feature.sub_assign this other) mf this = Feature.sub (mf this) (mf other) r ∧
   exec (Feature.scale_assign this sf) mf this
   = Feature.scale (mf this) (eval (Feature.deref sf) mf) r).
Proof.
  intros Hsv Hsf Hwf Hr. split; repeat apply conj.
  - apply vertex_add_assign.
  - apply vertex_sub_assign.
  - by apply vertex_scale_assign.
  - by rewrite add_assign_value, add_value.
  - by rewrite sub_assign_value, sub_value.
  - by rewrite scale_assign_value, scale_value.
Qed.

(** C10. Addition is commutative and dot is symmetric on both vector types
    when the scalar type's addition and multiplication are commutative. *)
Theorem addition_commutative_dot_symmetric (a b : Vertex.t T)
    (fa fb r r' : Feature.t T) :
  (∀ u v : T, u ⊕ v = v ⊕ u) → (∀ u v : T, u ⊗ v = v ⊗ u) →
  Feature.wf r → Feature.wf r' →
  Vertex.add a b = Vertex.add b a ∧
  Vertex.dot a b = Vertex.dot b a ∧
  Feature.add fa fb r = Feature.add fb fa r' ∧
  Feature.dot fa fb = Feature.dot fb fa.
Proof.
  intros Hadd Hmul Hr Hr'. repeat apply conj.
  - unfold Vertex.add. f_equal; apply Hadd.
  - unfold Vertex.dot.
    by rewrite (Hmul (Vertex.x a)), (Hmul (Vertex.y a)), (Hmul (Vertex.z a)).
  - rewrite (add_value fb fa r') by done. rewrite <- (add_value fb fa r) by done.
    unfold Feature.add. apply for_range_ext. intros i s _. f_equal. apply Hadd.
  - unfold Feature.dot. apply for_range_ext. intros i s _. f_equal. apply Hmul.
Qed.

End VectorClaims.

Section VectorExamples.
Local Open Scope Z_scope.

Lemma feature_operations_witness :
  Feature.get (Feature.add feature_sample feature_sample feature_sample) 3 = 8 ∧
  Feature.get (exec (Feature.atomicAddWapper 0%nat 1%nat) feature_memory 0%nat) 7 = 16 ∧
  Feature.dot feature_sample feature_sample = 204.
Proof.
  destruct (feature_operations_componentwise feature_sample feature_sample
              feature_sample 2 feature_memory 0%nat 1%nat eq_refl eq_refl)
    as (_ & _ & Hslots & Hdot).
  split; [| split].
  - destruct (Hslots 3%nat ltac:(unfold Feature.SIZE; lia)) as (-> & _). reflexivity.
  - destruct (Hslots 7%nat ltac:(unfold Feature.SIZE; lia)) as (_ & _ & _ & _ & ->).
    reflexivity.
  - rewrite Hdot. reflexivity.
Defined.

Lemma compound_assignment_witness :
  exec (Vertex.add_assign 0%nat 0%nat) position_memory 0%nat = Vertex.mk 4 6 8 ∧
  exec (Vertex.scale_assign 0%nat (Vertex.Member 1%nat Vertex.fx)) position_memory 0%nat
  = Vertex.mk 4 6 8 ∧
  exec (Feature.scale_assign 0%nat (Feature.Outside 2)) feature_memory 0%nat
  = Feature.mk [2; 4; 6; 8; 10; 12; 14; 16].
Proof.
  destruct (compound_assignment_agrees position_memory feature_memory 0%nat 0%nat
              (Vertex.Member 1%nat Vertex.fx) (Feature.Outside 2) feature_sample)
    as ((Hadd & _ & Hscale) & (_ & _ & Hfscale));
    [cbn; lia | exact I | reflexivity | reflexivity |].
  split; [| split].
  - rewrite Hadd. reflexivity.
  - rewrite Hscale. reflexivity.
  - rewrite Hfscale. reflexivity.
Defined.

(** C7 as stated fails when the scalar is a member of the receiver:
    [a *= a.x] on (2, 3, 4) multiplies [y] and [z] by the updated [x] and
    leaves (4, 12, 16), whereas [a * a.x] is (4, 6, 8). *)
Lemma scale_assign_aliasing :
  eval (Vertex.deref (Vertex.Member 0%nat Vertex.fx)) position_memory = 2 ∧
  exec (Vertex.scale_assign 0%nat (Vertex.Member 0%nat Vertex.fx)) position_memory 0%nat
  = Vertex.mk 4 12 16 ∧
  Vertex.scale (position_memory 0%nat) 2 = Vertex.mk 4 6 8 ∧
  exec (Vertex.scale_assign 0%nat (Vertex.Member 0%nat Vertex.fx)) position_memory 0%nat
  ≠ Vertex.scale (position_memory 0%nat)
      (eval (Vertex.deref (Vertex.Member 0%nat Vertex.fx)) position_memory).
Proof. repeat split. vm_compute. discriminate. Qed.

Lemma addition_commutative_witness :
  Vertex.add (Vertex.mk 1 2 3) (Vertex.mk 4 5 6)
  = Vertex.add (Vertex.mk 4 5 6) (Vertex.mk 1 2 3) ∧
  Feature.dot feature_sample (Feature.mk [8; 7; 6; 5; 4; 3; 2; 1])
  = Feature.dot (Feature.mk [8; 7; 6; 5; 4; 3; 2; 1]) feature_sample.
Proof.
  destruct (addition_commutative_dot_symmetric (H := Z_scalar)
              (Vertex.mk 1 2 3) (Vertex.mk 4 5 6)
              feature_sample (Feature.mk [8; 7; 6; 5; 4; 3; 2; 1])
              feature_sample feature_sample Z.add_comm Z.mul_comm eq_refl eq_refl)
    as (Hadd & _ & _ & Hdot).
  split; [exact Hadd | exact Hdot].
Defined.

End VectorExamples.

(** ** The derived counts *)

Section ForwardClaims.
Import Index.
Local Open Scope Z_scope.
Context {Scalar : Type}.
Variable k : Kind.
Variable inside : Scalar → Scalar → bool.
Variable corner : CuMC.t Scalar → list Scalar → Z → nat → Scalar.
Variable mc_verts mc_tris : Z → Z.
Variable not_used : Z.
Variable device_alloc : Z → bool.
Variable generate :
  CuMC.t Scalar → list Scalar → list (Feature.t Scalar) → Scalar →
  list Z * list (Vertex.t Scalar) * list (Feature.t Scalar) * list Z.





End ForwardClaims.



(** * Further properties of the header *)

(** ** Grid addressing: bounds, layout, order *)

Section AddressingLayout.
Import Index.
Local Open Scope Z_scope.
Context {Scalar : Type}.
Variable k : Kind.
Implicit Types c : CuMC.t Scalar.

Lemma wrap_add_l (a b : Z) : wrap k (wrap k a + b) = wrap k (a + b).
Proof. rewrite (Z.add_comm (wrap k a)), wrap_add_r. f_equal. lia. Qed.

(** Inside a grid whose cell count fits the index type, the linear index is
    the integer formula itself and lies in [0, cell count). *)
Lemma gA_exact c (x y z : Z) :
  Spec.cell_count (CuMC.dims c !!! 0%fin) (CuMC.dims c !!! 1%fin) (CuMC.dims c !!! 2%fin)
  <= max k →
  in_grid c (x, y, z) →
  CuMC.gA k c x y z
  = Spec.linear (CuMC.dims c !!! 1%fin) (CuMC.dims c !!! 2%fin) x y z ∧
  0 <= CuMC.gA k c x y z
  < Spec.cell_count (CuMC.dims c !!! 0%fin) (CuMC.dims c !!! 1%fin) (CuMC.dims c !!! 2%fin).
Proof.
  unfold Spec.cell_count, in_grid.
  set (d0 := CuMC.dims c !!! 0%fin). set (d1 := CuMC.dims c !!! 1%fin).
  set (d2 := CuMC.dims c !!! 2%fin). intros Hfit (Hx & Hy & Hz).
  assert (Hq : 0 <= y + d1 * x <= d0 * d1 - 1) by nia.
  assert (Hq2 : d2 * (y + d1 * x) <= d2 * (d0 * d1 - 1))
    by (apply Z.mul_le_mono_nonneg_l; lia).
  assert (HL : 0 <= Spec.linear d1 d2 x y z < d0 * d1 * d2) by (unfold Spec.linear; nia).
  rewrite gA_wrap. fold d1 d2. rewrite wrap_small by (apply range_nonneg; lia). done.
Qed.

(** X1. For coordinates inside a grid whose cell count is representable,
    [gA] returns an index in [0, dims[0]*dims[1]*dims[2]): it never addresses
    outside the per-cell arrays. *)
Theorem gA_in_bounds c (x y z : Z) :
  Spec.cell_count (CuMC.dims c !!! 0%fin) (CuMC.dims c !!! 1%fin) (CuMC.dims c !!! 2%fin)
  <= max k →
  in_grid c (x, y, z) →
  0 <= CuMC.gA k c x y z
  < Spec.cell_count (CuMC.dims c !!! 0%fin) (CuMC.dims c !!! 1%fin) (CuMC.dims c !!! 2%fin).
Proof. intros Hfit Hin. by apply gA_exact. Qed.

Lemma decoded_coordinates c (idx : Z) :
  let d0 := CuMC.dims c !!! 0%fin in
  let d1 := CuMC.dims c !!! 1%fin in
  let d2 := CuMC.dims c !!! 2%fin in
  0 < d1 → 0 < d2 → Spec.cell_count d0 d1 d2 <= max k →
  0 <= idx < Spec.cell_count d0 d1 d2 →
  ∃ x y z, CuMC.gX k c idx = Ok x ∧ CuMC.gY k c idx = Ok y ∧
           CuMC.gZ k c idx = Ok z ∧ in_grid c (x, y, z).
Proof.
  cbn zeta. unfold Spec.cell_count, in_grid.
  set (d0 := CuMC.dims c !!! 0%fin). set (d1 := CuMC.dims c !!! 1%fin).
  set (d2 := CuMC.dims c !!! 2%fin). intros H1 H2 Hfit Hidx.
  assert (H0 : 0 < d0) by nia.
  assert (Hp0 : 0 < d2 * d1) by (apply Z.mul_pos_pos; lia).
  assert (Hp : d2 * d1 <= d0 * d1 * d2)
    by (replace (d0 * d1 * d2) with (d0 * (d2 * d1)) by ring; nia).
  exists (idx / (d2 * d1)), ((idx / d2) mod d1), (idx mod d2).
  unfold CuMC.gX, CuMC.gY, CuMC.gZ. fold d1 d2.
  unfold mul. rewrite (wrap_small k (d2 * d1)) by (apply range_nonneg; lia).
  rewrite !div_pos, rem_pos by lia. cbn. rewrite rem_pos by lia.
  rewrite !Z.quot_div_nonneg, !Z.rem_mod_nonneg by (try apply Z.div_pos; lia).
  repeat split; try (apply Z.mod_pos_bound; lia).
  - apply Z.div_pos; lia.
  - apply Z.div_lt_upper_bound; [lia |].
    replace (d2 * d1 * d0) with (d0 * d1 * d2) by ring. lia.
Qed.

(** X2. For a linear index in [0, dims[0]*dims[1]*dims[2]) of a grid with
    positive dims and representable cell count, [gX], [gY] and [gZ] all have
    a value and the triple they return lies inside the grid. *)
Theorem decoded_coordinates_in_grid c (idx : Z) :
  let d0 := CuMC.dims c !!! 0%fin in
  let d1 := CuMC.dims c !!! 1%fin in
  let d2 := CuMC.dims c !!! 2%fin in
  0 < d1 → 0 < d2 → Spec.cell_count d0 d1 d2 <= max k →
  0 <= idx < Spec.cell_count d0 d1 d2 →
  ∃ x y z, CuMC.gX k c idx = Ok x ∧ CuMC.gY k c idx = Ok y ∧
           CuMC.gZ k c idx = Ok z ∧ in_grid c (x, y, z).
Proof. apply decoded_coordinates. Qed.

(** X3. On a grid whose cell count is representable, [gA] is injective:
    two coordinate triples inside the grid with the same linear index are
    the same triple. *)
Theorem gA_injective c (x y z x' y' z' : Z) :
  Spec.cell_count (CuMC.dims c !!! 0%fin) (CuMC.dims c !!! 1%fin) (CuMC.dims c !!! 2%fin)
  <= max k →
  in_grid c (x, y, z) → in_grid c (x', y', z') →
  CuMC.gA k c x y z = CuMC.gA k c x' y' z' →
  (x, y, z) = (x', y', z').
Proof.
  intros Hfit (Hx & Hy & Hz) (Hx' & Hy' & Hz') Heq.
  destruct (coordinates_round_trip k c x y z Hfit Hx Hy Hz) as (HX & HY & HZ).
  destruct (coordinates_round_trip k c x' y' z' Hfit Hx' Hy' Hz') as (HX' & HY' & HZ').
  rewrite Heq in HX, HY, HZ. congruence.
Qed.

(** X4. The layout is row-major with [z] contiguous: in the index type,
    one step in [z] moves the linear index by 1, one step in [y] by
    [dims[2]], and one step in [x] by [dims[2]*dims[1]].  This holds for
    every context and all arguments, overflow included. *)
Theorem gA_strides c (x y z : Z) :
  CuMC.gA k c x y (z + 1) = add k (CuMC.gA k c x y z) 1 ∧
  CuMC.gA k c x (y + 1) z = add k (CuMC.gA k c x y z) (CuMC.dims c !!! 2%fin) ∧
  CuMC.gA k c (x + 1) y z
  = add k (CuMC.gA k c x y z) (mul k (CuMC.dims c !!! 2%fin) (CuMC.dims c !!! 1%fin)).
Proof.
  rewrite !gA_wrap. unfold add, mul, Spec.linear. rewrite !wrap_add_l.
  rewrite wrap_add_r. repeat split; f_equal; ring.
Qed.

(** X5. The linear order of the cells is the lexicographic order of their
    coordinates, [x] most significant: inside a grid whose cell count is
    representable, a triple that is lexicographically smaller has the
    smaller linear index. *)
Theorem gA_lexicographic c (x y z x' y' z' : Z) :
  Spec.cell_count (CuMC.dims c !!! 0%fin) (CuMC.dims c !!! 1%fin) (CuMC.dims c !!! 2%fin)
  <= max k →
  in_grid c (x, y, z) → in_grid c (x', y', z') →
  lex_lt (x, y, z) (x', y', z') →
  CuMC.gA k c x y z < CuMC.gA k c x' y' z'.
Proof.
  intros Hfit Hin Hin' Hlex.
  destruct (gA_exact c x y z Hfit Hin) as [-> _].
  destruct (gA_exact c x' y' z' Hfit Hin') as [-> _].
  unfold in_grid, lex_lt, Spec.linear in *.
  set (d1 := CuMC.dims c !!! 1%fin) in *. set (d2 := CuMC.dims c !!! 2%fin) in *.
  destruct Hin as (Hx & Hy & Hz), Hin' as (Hx' & Hy' & Hz').
  destruct Hlex as [Hlt | [-> [Hlt | [-> Hlt]]]].
  - assert (y + d1 * x + 1 <= y' + d1 * x') by nia.
    assert (d2 * (y + d1 * x + 1) <= d2 * (y' + d1 * x'))
      by (apply Z.mul_le_mono_nonneg_l; lia).
    lia.
  - assert (d2 * (y + d1 * x' + 1) <= d2 * (y' + d1 * x'))
      by (apply Z.mul_le_mono_nonneg_l; lia).
    lia.
  - lia.
Qed.

(** X6. Addressing never consults [dims[0]] or [n_cells]: with positive
    [dims[1]], [dims[2]] and a representable product, every non-negative
    index of the type is recovered from its decoded coordinates, and an
    index at or beyond [dims[0]*dims[1]*dims[2]] decodes, without any
    failure or clamping, to an [x] at or beyond [dims[0]]. *)
Theorem decoding_is_not_bounded_by_dims0 c (idx : Z) :
  let d0 := CuMC.dims c !!! 0%fin in
  let d1 := CuMC.dims c !!! 1%fin in
  let d2 := CuMC.dims c !!! 2%fin in
  0 < d1 → 0 < d2 → d2 * d1 <= max k → 0 <= idx <= max k →
  (x ← CuMC.gX k c idx; y ← CuMC.gY k c idx; z ← CuMC.gZ k c idx;
   mret (CuMC.gA k c x y z)) = Ok idx ∧
  (Spec.cell_count d0 d1 d2 <= idx → ∃ x, CuMC.gX k c idx = Ok x ∧ d0 <= x).
Proof.
  cbn zeta. intros H1 H2 Hp Hidx. split; [by apply index_round_trip |].
  unfold Spec.cell_count.
  set (d0 := CuMC.dims c !!! 0%fin). set (d1 := CuMC.dims c !!! 1%fin) in *.
  set (d2 := CuMC.dims c !!! 2%fin) in *. intros Hout.
  assert (Hp0 : 0 < d2 * d1) by (apply Z.mul_pos_pos; lia).
  exists (idx / (d2 * d1)). unfold CuMC.gX. fold d1 d2.
  unfold mul. rewrite (wrap_small k (d2 * d1)) by (apply range_nonneg; lia).
  rewrite div_pos by lia. rewrite Z.quot_div_nonneg by lia. split; [done |].
  apply Z.div_le_lower_bound; [lia |].
  replace (d2 * d1 * d0) with (d0 * d1 * d2) by ring. lia.
Qed.

End AddressingLayout.

(** ** resize: composition and degenerate grids *)

Section ResizeFurther.
Import Index.
Local Open Scope Z_scope.
Context {Scalar : Type}.
Variable k : Kind.
Implicit Types c : CuMC.t Scalar.

Lemma resize_dims c (x y z : Z) : CuMC.dims (CuMC.resize k c x y z) = [# x; y; z].
Proof.
  unfold CuMC.resize. cbn [CuMC.dims CuMC.set_dims CuMC.set_n_cells].
  generalize (CuMC.dims c). intros v. inv_vec v. intros a b d. reflexivity.
Qed.

Lemma resize_dim0 c (x y z : Z) : CuMC.dims (CuMC.resize k c x y z) !!! 0%fin = x.
Proof. by rewrite resize_dims. Qed.

Lemma resize_dim1 c (x y z : Z) : CuMC.dims (CuMC.resize k c x y z) !!! 1%fin = y.
Proof. by rewrite resize_dims. Qed.

Lemma resize_dim2 c (x y z : Z) : CuMC.dims (CuMC.resize k c x y z) !!! 2%fin = z.
Proof. by rewrite resize_dims. Qed.

Lemma resize_n_cells_exact c (x y z : Z) :
  0 <= x → 0 <= y → 0 <= z → Spec.cell_count x y z <= max k →
  CuMC.n_cells (CuMC.resize k c x y z) = Spec.cell_count x y z.
Proof.
  unfold Spec.cell_count. intros Hx Hy Hz Hfit.
  cbn [CuMC.resize CuMC.n_cells CuMC.set_n_cells]. unfold mul.
  rewrite wrap_mul_l. apply wrap_small, range_nonneg. nia.
Qed.

(** X7. The last [resize] wins: resizing twice leaves exactly the state of
    the second resize alone, so going to another resolution and back
    restores the dims and the cell count of the first. *)
Theorem resize_last_wins c (x y z x' y' z' : Z) :
  CuMC.resize k (CuMC.resize k c x y z) x' y' z' = CuMC.resize k c x' y' z' ∧
  CuMC.resize k (CuMC.resize k (CuMC.resize k c x y z) x' y' z') x y z
  = CuMC.resize k c x y z.
Proof.
  assert (Hlast : ∀ c a b d a' b' d',
            CuMC.resize k (CuMC.resize k c a b d) a' b' d' = CuMC.resize k c a' b' d').
  { intros [v ?] a b d a' b' d'. inv_vec v. intros u1 u2 u3. reflexivity. }
  split; [apply Hlast |]. by rewrite !Hlast.
Qed.

(** X8. Degenerate grids: [resize] with a zero dimension gives
    [n_cells = 0]; with [dims[2] = 0] all of [gX], [gY], [gZ] are undefined at
    every index, and with [dims[1] = 0] so are [gX] and [gY]. *)
Theorem resize_to_empty_grid c (x y z : Z) :
  let c' := CuMC.resize k c x y z in
  (x = 0 ∨ y = 0 ∨ z = 0 → CuMC.n_cells c' = 0) ∧
  (z = 0 → ∀ idx, CuMC.gX k c' idx = Err UndefinedBehaviour ∧
                   CuMC.gY k c' idx = Err UndefinedBehaviour ∧
                   CuMC.gZ k c' idx = Err UndefinedBehaviour) ∧
  (y = 0 → ∀ idx, CuMC.gX k c' idx = Err UndefinedBehaviour ∧
                   CuMC.gY k c' idx = Err UndefinedBehaviour).
Proof.
  cbn zeta. unfold CuMC.gX, CuMC.gY, CuMC.gZ. rewrite resize_dim1, resize_dim2.
  repeat split.
  - intros Hzero. cbn [CuMC.resize CuMC.n_cells CuMC.set_n_cells]. unfold mul.
    rewrite wrap_mul_l. replace (x * y * z) with 0 by nia. by destruct k.
  - subst z. cbn. unfold mul. rewrite Z.mul_0_l. by destruct k.
  - by subst z.
  - by subst z.
  - subst y. cbn. unfold mul. rewrite Z.mul_0_r. by destruct k.
  - subst y. unfold div. destruct (z =? 0); [reflexivity |].
    destruct (quot_overflows k idx z); reflexivity.
Qed.

(** X9. [resize] establishes what addressing needs: after
    [resize(x, y, z)] with positive arguments whose product is representable,
    [n_cells] is exactly [x*y*z], and every index in [0, n_cells) decodes to
    coordinates inside the grid from which [gA] gives the index back. *)
Theorem resize_then_address c (x y z idx : Z) :
  let c' := CuMC.resize k c x y z in
  0 < x → 0 < y → 0 < z → Spec.cell_count x y z <= max k →
  CuMC.n_cells c' = Spec.cell_count x y z ∧
  (0 <= idx < CuMC.n_cells c' →
   ∃ x' y' z', CuMC.gX k c' idx = Ok x' ∧ CuMC.gY k c' idx = Ok y' ∧
               CuMC.gZ k c' idx = Ok z' ∧ in_grid c' (x', y', z') ∧
               CuMC.gA k c' x' y' z' = idx).
Proof.
  cbn zeta. intros Hx Hy Hz Hfit.
  rewrite resize_n_cells_exact by (done || lia). split; [done |]. intros Hidx.
  pose proof (decoded_coordinates k (CuMC.resize k c x y z) idx) as Hdec.
  pose proof (index_round_trip k (CuMC.resize k c x y z) idx) as Hback.
  cbn zeta in Hdec, Hback.
  rewrite !resize_dim0, !resize_dim1, !resize_dim2 in Hdec.
  rewrite !resize_dim1, !resize_dim2 in Hback.
  unfold Spec.cell_count in *.
  assert (Hp : z * y <= x * y * z)
    by (replace (x * y * z) with (x * (z * y)) by ring; nia).
  destruct (Hdec Hy Hz Hfit Hidx) as (x' & y' & z' & HX & HY & HZ & Hin).
  exists x', y', z'. split; [done |]. split; [done |]. split; [done |].
  split; [done |].
  specialize (Hback Hy Hz ltac:(lia) ltac:(lia)).
  rewrite HX, HY, HZ in Hback. cbn in Hback. by injection Hback.
Qed.

End ResizeFurther.

(** ** Position: frame, chaining, aliasing, round trip *)

Section VertexFurther.
Context {T : Type} `{ScalarOps T}.
Implicit Types (a b : Vertex.t T) (m : Mem (Vertex.t T)).

Lemma exec_bind {O A B : Type} (c : St O A) (f : A → St O B) (m : Mem O) :
  exec (c ≫= f) m = exec (f (eval c m)) (exec c m).
Proof. unfold exec, eval, mbind, St_bind. by destruct (c m). Qed.

Lemma vertex_add_assign_frame m (this other l : loc) :
  l ≠ this → exec (Vertex.add_assign this other) m l = m l.
Proof.
  intros Hne. unfold Vertex.add_assign, exec, mbind, St_bind, load, store, mret, St_ret.
  cbn [fst snd]. by rewrite !fn_lookup_insert_ne.
Qed.

Lemma vertex_sub_assign_frame m (this other l : loc) :
  l ≠ this → exec (Vertex.sub_assign this other) m l = m l.
Proof.
  intros Hne. unfold Vertex.sub_assign, exec, mbind, St_bind, load, store, mret, St_ret.
  cbn [fst snd]. by rewrite !fn_lookup_insert_ne.
Qed.

Lemma vertex_scale_assign_frame m (this : loc) (scalar : Vertex.sref T) (l : loc) :
  l ≠ this → exec (Vertex.scale_assign this scalar) m l = m l.
Proof.
  intros Hne.
  destruct scalar as [s | l' f];
    unfold Vertex.scale_assign, Vertex.deref, exec, mbind, St_bind, load, store,
      mret, St_ret; cbn [fst snd]; by rewrite !fn_lookup_insert_ne.
Qed.

(** X10. A compound assignment on a Position writes only the receiver:
    every other object, an unaliased right operand included, is left as it
    was, and the call returns the receiver's own location ([*this]). *)
Theorem vertex_compound_frame m (this other l : loc) (scalar : Vertex.sref T) :
  l ≠ this →
  (exec (Vertex.add_assign this other) m l = m l ∧
   exec (Vertex.sub_assign this other) m l = m l ∧
   exec (Vertex.scale_assign this scalar) m l = m l) ∧
  (eval (Vertex.add_assign this other) m = this ∧
   eval (Vertex.sub_assign this other) m = this ∧
   eval (Vertex.scale_assign this scalar) m = this).
Proof.
  intros Hne. split; [| by destruct scalar].
  split; [by apply vertex_add_assign_frame |].
  split; [by apply vertex_sub_assign_frame | by apply vertex_scale_assign_frame].
Qed.

(** X11. Compound assignments chain through the returned reference:
    [(a += b) += c] leaves [a] equal to [(a + b) + c] when [c] is not [a],
    and [(a += b) -= c] equal to [(a + b) - c]. *)
Theorem vertex_compound_chain m (this b c : loc) :
  c ≠ this →
  exec (r ← Vertex.add_assign this b; Vertex.add_assign r c) m this
  = Vertex.add (Vertex.add (m this) (m b)) (m c) ∧
  exec (r ← Vertex.add_assign this b; Vertex.sub_assign r c) m this
  = Vertex.sub (Vertex.add (m this) (m b)) (m c).
Proof.
  intros Hne. rewrite !exec_bind.
  assert (Hret : eval (Vertex.add_assign this b) m = this) by reflexivity.
  rewrite Hret, vertex_add_assign, vertex_sub_assign, vertex_add_assign.
  by rewrite vertex_add_assign_frame.
Qed.


(** X13. [a += b] followed by [a -= b] restores [a], for [b] other than [a],
    whenever the scalar type satisfies [(u + v) - v = u]. *)
Theorem vertex_add_sub_round_trip m (this other : loc) :
  (∀ u v : T, (u ⊕ v) ⊖ v = u) → other ≠ this →
  exec (Vertex.sub_assign this other) (exec (Vertex.add_assign this other) m) this
  = m this.
Proof.
  intros Hcancel Hne. rewrite vertex_sub_assign, vertex_add_assign.
  rewrite vertex_add_assign_frame by done.
  destruct (m this) as [x y z]. unfold Vertex.sub, Vertex.add. cbn.
  by rewrite !Hcancel.
Qed.

End VertexFurther.

(** ** FeatureVector: frame, aliasing, accumulation, round trip *)

Section FeatureFurther.
Context {T : Type} `{ScalarOps T}.
Implicit Types (a b r : Feature.t T) (m : Mem (Feature.t T)).


Lemma store_loop_frame (g : nat → Mem (Feature.t T) → Feature.t T)
    (this : loc) (start count : nat) m (l : loc) :
  l ≠ this →
  for_range start count (λ i m, <[this := g i m]> m) m l = m l.
Proof.
  intros Hne. revert start m.
  induction count as [| count IH]; intros start m; [done |].
  cbn [for_range]. rewrite IH. by rewrite fn_lookup_insert_ne.
Qed.


Lemma wf_eta a :
  Feature.wf a →
  a = Feature.mk [Feature.get a 0; Feature.get a 1; Feature.get a 2; Feature.get a 3;
                  Feature.get a 4; Feature.get a 5; Feature.get a 6; Feature.get a 7].
Proof.
  destruct a as [l]. unfold Feature.wf. cbn [Feature.data]. intros Hlen.
  do 9 (destruct l as [| ? l]; try discriminate Hlen). reflexivity.
Qed.

Lemma feature_add_assign_frame m (this other l : loc) :
  l ≠ this → exec (Feature.add_assign this other) m l = m l.
Proof.
  apply (store_loop_frame
           (λ i m, Feature.set (m this) i (Feature.get (m this) i ⊕ Feature.get (m other) i))).
Qed.

Lemma feature_sub_assign_frame m (this other l : loc) :
  l ≠ this → exec (Feature.sub_assign this other) m l = m l.
Proof.
  apply (store_loop_frame
           (λ i m, Feature.set (m this) i (Feature.get (m this) i ⊖ Feature.get (m other) i))).
Qed.

Lemma atomicAddWapper_frame m (this other l : loc) :
  l ≠ this → exec (Feature.atomicAddWapper this other) m l = m l.
Proof.
  apply (store_loop_frame
           (λ i m, Feature.set (m this) i (Feature.get (m this) i ⊕ Feature.get (m other) i))).
Qed.

Lemma feature_scale_assign_frame m (this : loc) (scalar : Feature.sref T) (l : loc) :
  l ≠ this → exec (Feature.scale_assign this scalar) m l = m l.
Proof.
  destruct scalar as [s | l' j].
  - apply (store_loop_frame
             (λ i m, Feature.set (m this) i (Feature.get (m this) i ⊗ s))).
  - apply (store_loop_frame
             (λ i m, Feature.set (m this) i
                       (Feature.get (m this) i ⊗ Feature.get (m l') j))).
Qed.

(** X14. A compound assignment or an atomic accumulation on a FeatureVector
    writes only the receiver: every other object, an unaliased right operand
    included, is left as it was. *)
Theorem feature_compound_frame m (this other l : loc) (scalar : Feature.sref T) :
  l ≠ this →
  exec (Feature.add_assign this other) m l = m l ∧
  exec (Feature.sub_assign this other) m l = m l ∧
  exec (Feature.scale_assign this scalar) m l = m l ∧
  exec (Feature.atomicAddWapper this other) m l = m l.
Proof.
  intros Hne. split; [by apply feature_add_assign_frame |].
  split; [by apply feature_sub_assign_frame |].
  split; [by apply feature_scale_assign_frame | by apply atomicAddWapper_frame].
Qed.

(** X15. The binary operators never expose the uninitialised contents of
    their local [result]: whatever the eight slots hold on entry, [a + b],
    [a - b], [a * b] and [a * s] return the same value. *)
Theorem feature_result_ignores_uninitialised a b (s : T) r r' :
  Feature.wf r → Feature.wf r' →
  Feature.add a b r = Feature.add a b r' ∧
  Feature.sub a b r = Feature.sub a b r' ∧
  Feature.mul a b r = Feature.mul a b r' ∧
  Feature.scale a s r = Feature.scale a s r'.
Proof.
  intros Hr Hr'.
  by rewrite !add_value, !sub_value, !mul_value, !scale_value.
Qed.

End FeatureFurther.

Section FeatureAliasing.
Context {T : Type} `{ScalarOps T}.
Implicit Types (a b r : Feature.t T) (m : Mem (Feature.t T)).




(** X17. Accumulation is order-independent: when scalar addition satisfies
    [(u + v) + w = (u + w) + v], adding the contributions [b] and [c] into
    [a] with [atomicAddWapper] gives the same [a] in either order, each slot
    holding [(a.data[i] + b.data[i]) + c.data[i]]. *)
Theorem atomic_accumulation_commutes m (this b c : loc) :
  (∀ u v w : T, (u ⊕ v) ⊕ w = (u ⊕ w) ⊕ v) →
  b ≠ this → c ≠ this → Feature.wf (m this) →
  exec (Feature.atomicAddWapper this c) (exec (Feature.atomicAddWapper this b) m) this
  = exec (Feature.atomicAddWapper this b) (exec (Feature.atomicAddWapper this c) m) this ∧
  exec (Feature.atomicAddWapper this c) (exec (Feature.atomicAddWapper this b) m) this
  = Feature.zipped sadd (Feature.zipped sadd (m this) (m b)) (m c).
Proof.
  intros Hrc Hb Hc Hwf.
  assert (Hseq : ∀ p q : loc, p ≠ this → q ≠ this →
            exec (Feature.atomicAddWapper this q)
              (exec (Feature.atomicAddWapper this p) m) this
            = Feature.zipped sadd (Feature.zipped sadd (m this) (m p)) (m q)).
  { intros p q Hp Hq.
    rewrite atomicAddWapper_value
      by (rewrite atomicAddWapper_value by done; apply zipped_wf).
    rewrite atomicAddWapper_value by done.
    by rewrite atomicAddWapper_frame by done. }
  split; [| by apply Hseq]. rewrite !Hseq by done.
  unfold Feature.zipped, Feature.get. cbn.
  f_equal. do 7 (f_equal; [symmetry; apply Hrc |]). f_equal. symmetry. apply Hrc.
Qed.

(** X18. [a += b] followed by [a -= b] restores the eight slots of [a], for
    [b] other than [a], whenever the scalar type satisfies
    [(u + v) - v = u]. *)
Theorem feature_add_sub_round_trip m (this other : loc) :
  (∀ u v : T, (u ⊕ v) ⊖ v = u) → other ≠ this → Feature.wf (m this) →
  exec (Feature.sub_assign this other) (exec (Feature.add_assign this other) m) this
  = m this.
Proof.
  intros Hcancel Hne Hwf.
  rewrite sub_assign_value by (rewrite add_assign_value by done; apply zipped_wf).
  rewrite add_assign_value by done. rewrite feature_add_assign_frame by done.
  etransitivity; [| symmetry; apply (wf_eta _ Hwf)].
  unfold Feature.zipped, Feature.get. cbn. by rewrite !Hcancel.
Qed.

End FeatureAliasing.

(** ** Grid addressing: negative indices *)

Section NegativeIndex.
Import Index.
Local Open Scope Z_scope.
Context {Scalar : Type}.
Variable k : Kind.
Implicit Types c : CuMC.t Scalar.

(** X19. Division truncates towards zero, so a negative linear index (of a
    signed index type) is not folded back into the grid: with positive
    [dims[1]], [dims[2]] and product, [gX], [gY] and [gZ] all have a value,
    none of the three is positive, and the triple is never a cell of the
    grid. *)
Theorem negative_index_decodes_outside c (idx : Z) :
  let d1 := CuMC.dims c !!! 1%fin in
  let d2 := CuMC.dims c !!! 2%fin in
  0 < d1 → 0 < d2 → 0 < mul k d2 d1 → idx < 0 →
  ∃ x y z, CuMC.gX k c idx = Ok x ∧ CuMC.gY k c idx = Ok y ∧
           CuMC.gZ k c idx = Ok z ∧
           x <= 0 ∧ y <= 0 ∧ z <= 0 ∧ ¬ in_grid c (x, y, z).
Proof.
  cbn zeta.
  set (d1 := CuMC.dims c !!! 1%fin). set (d2 := CuMC.dims c !!! 2%fin).
  intros H1 H2 Hp Hidx.
  exists (idx ÷ mul k d2 d1), ((idx ÷ d2) `rem` d1), (idx `rem` d2).
  unfold CuMC.gX, CuMC.gY, CuMC.gZ. fold d1 d2.
  rewrite !div_pos, rem_pos by lia. cbn. rewrite rem_pos by lia.
  assert (Hx : idx ÷ mul k d2 d1 <= 0)
    by (apply Z.quot_le_upper_bound; lia).
  assert (Hq : idx ÷ d2 <= 0) by (apply Z.quot_le_upper_bound; lia).
  assert (Hy : (idx ÷ d2) `rem` d1 <= 0) by (apply Z.rem_nonpos; lia).
  assert (Hz : idx `rem` d2 <= 0) by (apply Z.rem_nonpos; lia).
  repeat split; try done.
  unfold in_grid. fold d1 d2. intros (Hx' & Hy' & Hz').
  pose proof (Z.quot_rem' idx d2) as E1.
  pose proof (Z.quot_rem' (idx ÷ d2) d1) as E2.
  assert (Hz0 : idx `rem` d2 = 0) by lia.
  assert (Hy0 : (idx ÷ d2) `rem` d1 = 0) by lia.
  assert (Hq' : idx ÷ d2 < 0) by nia.
  assert (Hqq : idx ÷ d2 ÷ d1 < 0) by nia.
  assert (Hx0 : idx ÷ mul k d2 d1 = 0) by lia.
  apply Z.quot_small_iff in Hx0; [| lia].
  assert (Hlow : - mul k d2 d1 < idx) by lia.
  pose proof (wrap_range k (d2 * d1)) as Hwr. unfold mul in *.
  destruct (Z_le_gt_dec (d2 * d1) (max k)) as [Hfit | Hover].
  - rewrite (wrap_small k (d2 * d1)) in Hlow by (apply range_nonneg; nia). nia.
  - unfold range in Hwr. nia.
Qed.

End NegativeIndex.

(** ** The further properties on sample inputs *)

Section FurtherExamples.
Import Index.
Local Open Scope Z_scope.

Lemma gA_in_bounds_witness :
  0 <= CuMC.gA Int32 sample_grid_context 3 4 5 < 120.
Proof.
  apply (gA_in_bounds Int32 sample_grid_context 3 4 5); vm_compute;
    repeat split; congruence.
Defined.

Lemma decoded_coordinates_witness :
  ∃ x y z, CuMC.gX Int32 sample_grid_context 119 = Ok x ∧
           CuMC.gY Int32 sample_grid_context 119 = Ok y ∧
           CuMC.gZ Int32 sample_grid_context 119 = Ok z ∧
           in_grid sample_grid_context (x, y, z).
Proof.
  apply (decoded_coordinates_in_grid Int32 sample_grid_context 119); vm_compute;
    repeat split; congruence.
Defined.

Lemma gA_injective_witness :
  CuMC.gA Int32 sample_grid_context 1 2 3 = 45 ∧
  ((1, 2, 3) : Z * Z * Z) = (1, 2, 3).
Proof.
  split; [reflexivity |].
  apply (gA_injective Int32 sample_grid_context 1 2 3 1 2 3);
    [vm_compute; congruence | vm_compute; repeat split; congruence
    | vm_compute; repeat split; congruence | reflexivity].
Defined.

Lemma gA_lexicographic_witness :
  CuMC.gA Int32 sample_grid_context 1 4 5 < CuMC.gA Int32 sample_grid_context 2 0 0.
Proof.
  apply (gA_lexicographic Int32 sample_grid_context 1 4 5 2 0 0).
  - vm_compute. congruence.
  - vm_compute. repeat split; congruence.
  - vm_compute. repeat split; congruence.
  - left. lia.
Defined.

Lemma decoding_not_bounded_witness :
  (x ← CuMC.gX Int32 sample_grid_context 130; y ← CuMC.gY Int32 sample_grid_context 130;
   z ← CuMC.gZ Int32 sample_grid_context 130;
   mret (CuMC.gA Int32 sample_grid_context x y z)) = Ok 130 ∧
  ∃ x, CuMC.gX Int32 sample_grid_context 130 = Ok x ∧ 4 <= x.
Proof.
  destruct (decoding_is_not_bounded_by_dims0 Int32 sample_grid_context 130)
    as [Hback Hout]; try (vm_compute; repeat split; congruence).
  split; [exact Hback |]. apply Hout. vm_compute. congruence.
Defined.

Lemma resize_to_empty_grid_witness :
  CuMC.n_cells (CuMC.resize Int32 sample_grid_context 4 0 6) = 0 ∧
  CuMC.gX Int32 (CuMC.resize Int32 sample_grid_context 4 0 6) 7 = Err UndefinedBehaviour ∧
  CuMC.gY Int32 (CuMC.resize Int32 sample_grid_context 4 0 6) 7 = Err UndefinedBehaviour.
Proof.
  destruct (resize_to_empty_grid Int32 sample_grid_context 4 0 6) as (Hn & _ & Hy).
  split; [apply Hn; right; left; reflexivity |]. by apply Hy.
Defined.

Lemma resize_then_address_witness :
  CuMC.n_cells (CuMC.resize Int32 (CuMC.init (Scalar := unit)) 4 5 6) = 120 ∧
  ∃ x' y' z',
    CuMC.gX Int32 (CuMC.resize Int32 (CuMC.init (Scalar := unit)) 4 5 6) 77 = Ok x' ∧
    CuMC.gY Int32 (CuMC.resize Int32 (CuMC.init (Scalar := unit)) 4 5 6) 77 = Ok y' ∧
    CuMC.gZ Int32 (CuMC.resize Int32 (CuMC.init (Scalar := unit)) 4 5 6) 77 = Ok z' ∧
    in_grid (CuMC.resize Int32 (CuMC.init (Scalar := unit)) 4 5 6) (x', y', z') ∧
    CuMC.gA Int32 (CuMC.resize Int32 (CuMC.init (Scalar := unit)) 4 5 6) x' y' z' = 77.
Proof.
  assert (Hfit : Spec.cell_count 4 5 6 <= max Int32) by (vm_compute; congruence).
  destruct (resize_then_address Int32 (CuMC.init (Scalar := unit)) 4 5 6 77
              eq_refl eq_refl eq_refl Hfit) as [Hn Hidx].
  split; [exact Hn |]. apply Hidx. rewrite Hn. vm_compute. split; congruence.
Defined.

Lemma negative_index_witness :
  ∃ x y z, CuMC.gX Int32 sample_grid_context (-7) = Ok x ∧
           CuMC.gY Int32 sample_grid_context (-7) = Ok y ∧
           CuMC.gZ Int32 sample_grid_context (-7) = Ok z ∧
           x <= 0 ∧ y <= 0 ∧ z <= 0 ∧ ¬ in_grid sample_grid_context (x, y, z).
Proof.
  apply (negative_index_decodes_outside Int32 sample_grid_context (-7));
    reflexivity.
Defined.

Lemma vertex_compound_frame_witness :
  exec (Vertex.add_assign 0%nat 1%nat) position_bank 1%nat = Vertex.mk 1 2 3 ∧
  eval (Vertex.add_assign 0%nat 1%nat) position_bank = 0%nat.
Proof.
  destruct (vertex_compound_frame position_bank 0%nat 1%nat 1%nat (Vertex.Outside 2))
    as ((Hadd & _) & (Hret & _)); [lia |].
  split; [rewrite Hadd; reflexivity | exact Hret].
Defined.

Lemma vertex_compound_chain_witness :
  exec (r ← Vertex.add_assign 0%nat 1%nat; Vertex.add_assign r 2%nat) position_bank 0%nat
  = Vertex.mk 3 6 9.
Proof.
  destruct (vertex_compound_chain position_bank 0%nat 1%nat 2%nat) as [Hadd _]; [lia |].
  rewrite Hadd. reflexivity.
Defined.

Lemma vertex_add_sub_round_trip_witness :
  exec (Vertex.sub_assign 0%nat 1%nat) (exec (Vertex.add_assign 0%nat 1%nat) position_bank)
    0%nat
  = Vertex.mk 0 1 2.
Proof.
  rewrite (vertex_add_sub_round_trip (H := Z_scalar) position_bank 0%nat 1%nat
             Z.add_simpl_r ltac:(lia)).
  reflexivity.
Defined.

Lemma feature_compound_frame_witness :
  exec (Feature.atomicAddWapper 0%nat 1%nat) feature_bank 1%nat
  = Feature.mk [2; 3; 4; 5; 6; 7; 8; 9].
Proof.
  destruct (feature_compound_frame feature_bank 0%nat 1%nat 1%nat (Feature.Outside 2))
    as (_ & _ & _ & Hatomic); [lia |].
  rewrite Hatomic. reflexivity.
Defined.

Lemma feature_result_witness :
  Feature.add (feature_bank 0%nat) (feature_bank 1%nat) (feature_bank 2%nat)
  = Feature.add (feature_bank 0%nat) (feature_bank 1%nat) (feature_bank 3%nat).
Proof.
  destruct (feature_result_ignores_uninitialised (feature_bank 0%nat) (feature_bank 1%nat)
              2 (feature_bank 2%nat) (feature_bank 3%nat) eq_refl eq_refl)
    as (Hadd & _).
  exact Hadd.
Defined.


Lemma atomic_accumulation_witness :
  exec (Feature.atomicAddWapper 0%nat 2%nat)
    (exec (Feature.atomicAddWapper 0%nat 1%nat) feature_bank) 0%nat
  = exec (Feature.atomicAddWapper 0%nat 1%nat)
      (exec (Feature.atomicAddWapper 0%nat 2%nat) feature_bank) 0%nat.
Proof.
  assert (Hrc : ∀ u v w : Z, (u ⊕ v) ⊕ w = (u ⊕ w) ⊕ v) by (intros; cbn; lia).
  destruct (atomic_accumulation_commutes (H := Z_scalar) feature_bank 0%nat 1%nat 2%nat
              Hrc ltac:(lia) ltac:(lia) eq_refl) as [Hcomm _].
  exact Hcomm.
Defined.

Lemma feature_add_sub_round_trip_witness :
  exec (Feature.sub_assign 0%nat 1%nat)
    (exec (Feature.add_assign 0%nat 1%nat) feature_bank) 0%nat
  = Feature.mk [1; 2; 3; 4; 5; 6; 7; 8].
Proof.
  rewrite (feature_add_sub_round_trip (H := Z_scalar) feature_bank 0%nat 1%nat
             Z.add_simpl_r ltac:(lia) eq_refl).
  reflexivity.
Defined.

End FurtherExamples.
